(** * VDO: journal points, the VIO pool and the slab scrubber

    A shallow embedding of [vdo/base/journalPoint.h], [vdo/base/vioPool.c],
    [uds/util/atomic.h] and of the scrubber state declared in
    [vdo/base/slabScrubberInternals.h], with the properties stated about
    them.

    Unsigned C integers are integers of [Z] kept in their range; every
    operation that can leave the range is followed by an explicit [wrap]. *)

From Stdlib Require Import ZArith List Bool Lia Permutation.
Import ListNotations.

Local Open Scope Z_scope.

(** [wrap w x] is the value of [x] stored in an unsigned [w]-bit cell. *)
Definition wrap (w x : Z) : Z := x mod 2 ^ w.

(** ** journalPoint.h *)

Module JournalPoint.

(** [typedef uint16_t JournalEntryCount;] and the 64-bit [SequenceNumber]. *)
Record JournalPoint : Type := mkJournalPoint {
  sequenceNumber : Z;
  entryCount : Z
}.

Record PackedJournalPoint : Type := mkPackedJournalPoint {
  encodedPoint : Z
}.

(** The values a [JournalPoint] can hold: a [uint64_t] and a [uint16_t]. *)
Definition inRange (p : JournalPoint) : Prop :=
  0 <= sequenceNumber p < 2 ^ 64 /\ 0 <= entryCount p < 2 ^ 16.

(** The values a [JournalEntryCount] argument can hold. *)
Definition isEntryCount (n : Z) : Prop := 0 <= n < 2 ^ 16.

(** [advanceJournalPoint]: [entryCount++], then the carry into
    [sequenceNumber] when the count has reached [entriesPerBlock]. *)
Definition advanceJournalPoint (point : JournalPoint) (entriesPerBlock : Z)
  : JournalPoint :=
  let point := mkJournalPoint (sequenceNumber point)
                              (wrap 16 (entryCount point + 1)) in
  if entryCount point =? entriesPerBlock
  then mkJournalPoint (wrap 64 (sequenceNumber point + 1)) 0
  else point.

(** [isValidJournalPoint]; the pointer argument is an [option], [None] being
    [NULL]. *)
Definition isValidJournalPoint (point : option JournalPoint) : bool :=
  match point with
  | None => false
  | Some p => 0 <? sequenceNumber p
  end.

Definition beforeJournalPoint (first second : JournalPoint) : bool :=
  (sequenceNumber first <? sequenceNumber second)
  || ((sequenceNumber first =? sequenceNumber second)
      && (entryCount first <? entryCount second)).

Definition areEquivalentJournalPoints (first second : JournalPoint) : bool :=
  (sequenceNumber first =? sequenceNumber second)
  && (entryCount first =? entryCount second).

(** [packJournalPoint]: the shift is a 64-bit shift, so the bits of the
    sequence number above bit 47 fall off. *)
Definition packJournalPoint (unpacked : JournalPoint) : PackedJournalPoint :=
  mkPackedJournalPoint
    (Z.lor (wrap 64 (Z.shiftl (sequenceNumber unpacked) 16))
           (entryCount unpacked)).

(** [unpackJournalPoint]: [0xffff] is 65535; the second field is stored in a
    [uint16_t]. *)
Definition unpackJournalPoint (packed : PackedJournalPoint) : JournalPoint :=
  mkJournalPoint (Z.shiftr (encodedPoint packed) 16)
                 (wrap 16 (Z.land (encodedPoint packed) 65535)).

(** [advance] called [n] times in a row with the same block size. *)
Definition advanceTimes (n : nat) (entriesPerBlock : Z) (point : JournalPoint)
  : JournalPoint :=
  Nat.iter n (fun p => advanceJournalPoint p entriesPerBlock) point.

(** Exactly one of three booleans is [true]. *)
Definition exactlyOne (x y z : bool) : Prop :=
  (x = true /\ y = false /\ z = false)
  \/ (x = false /\ y = true /\ z = false)
  \/ (x = false /\ y = false /\ z = true).

End JournalPoint.

(** ** vioPool.c *)

Module VIOPool.

(** Modelled from the spec: statusCodes.h is not among the sources; success
    is the one status that is not an error, written 0 here. *)
Definition VDO_SUCCESS : Z := 0.

(** A waiter is known by its identity; so is a pool entry, by its index in
    [pool->entries]. *)
Abbreviation Waiter := nat (only parsing).
Abbreviation Entry := nat (only parsing).

(** What construction allocates and teardown gives back. *)
Inductive Resource : Type :=
| PoolMemory
| PoolBuffer
| EntryVIO (entry : Entry).

(** The four assertions of [freeVIOPool], in source order. *)
Inductive PoolAssertion : Type :=
| NoWaitersWhenFreed
| NoBusyCountWhenFreed (count : Z)
| NoBusyEntriesWhenFreed
| EntryStillInUse (entry : Entry).

(** What a pool operation does to the code around it: the continuation of a
    waiter is foreign code, so a call of it is recorded, not run. *)
Inductive Event : Type :=
| Invoke (waiter : Waiter) (entry : Entry)
| ClearErrorHandler (entry : Entry)
| AssertionFailed (assertion : PoolAssertion)
| Allocated (r : Resource)
| Released (r : Resource).

(** A call yields the events it caused and, when it returns, its value;
    [returned = None] is a call that followed a [NULL] link and never
    returned. *)
Record Outcome (A : Type) : Type := mkOutcome {
  events : list Event;
  returned : option A
}.
Arguments mkOutcome {A} _ _.
Arguments events {A} _.
Arguments returned {A} _.

Definition ret {A : Type} (a : A) : Outcome A := mkOutcome [] (Some a).

Definition nullDereference {A : Type} : Outcome A := mkOutcome [] None.

Definition emit (e : Event) : Outcome unit := mkOutcome [e] (Some tt).

Definition bind {A B : Type} (m : Outcome A) (f : A -> Outcome B)
  : Outcome B :=
  match returned m with
  | None => mkOutcome (events m) None
  | Some a => let r := f a in mkOutcome (events m ++ events r) (returned r)
  end.

Declare Scope pool_scope.
Delimit Scope pool_scope with pool.
Notation "x <- m ;; k" := (bind m (fun x => k))
  (at level 61, m at next level, right associativity) : pool_scope.
Notation "m ;;; k" := (bind m (fun _ => k))
  (at level 61, right associativity) : pool_scope.
Local Open Scope pool_scope.

(** Modelled from the spec: permassert.h is not among the sources. A
    condition of teardown that does not hold is an assertion failure, and
    it is reported. The macro is the log-only one, so the code after it is
    taken to run in both cases; nothing proved below about a failed
    assertion depends on what runs after it. *)
Definition ASSERT_LOG_ONLY (condition : bool) (assertion : PoolAssertion)
  : Outcome unit :=
  if condition then ret tt else emit (AssertionFailed assertion).

(** Modelled from the spec: ringNode.h is not among the sources. The lists
    are intrusive doubly-linked rings: a head is a pair of links, the empty
    ring is a head linked to itself, which is what [initializeRing]
    establishes. [Ring chain] is an initialised head with its members from
    [head->next] to [head->prev]. [NullRing] is a head of zero-filled memory
    that [initializeRing] has not reached: its links are [NULL], so it is
    not linked to itself and following a link of it dereferences [NULL]. *)
Inductive RingNode : Type :=
| NullRing
| Ring (chain : list Entry).

Definition initializeRing : RingNode := Ring [].

Definition isRingEmpty (ring : RingNode) : bool :=
  match ring with
  | Ring [] => true
  | _ => false
  end.

Definition ringLength (ring : RingNode) : nat :=
  match ring with
  | NullRing => O
  | Ring chain => length chain
  end.

Definition onRing (entry : Entry) (ring : RingNode) : bool :=
  match ring with
  | NullRing => false
  | Ring chain => existsb (Nat.eqb entry) chain
  end.

(** The node of [entry] taken out of [ring], if it is there. *)
Definition unspliceRingNode (entry : Entry) (ring : RingNode) : RingNode :=
  match ring with
  | NullRing => NullRing
  | Ring chain => Ring (remove Nat.eq_dec entry chain)
  end.

(** [chopRingNode]: the node at [head->prev], taken out of the ring, or
    [NULL] on an empty ring. *)
Definition chopRingNode (ring : RingNode)
  : Outcome (option Entry * RingNode) :=
  match ring with
  | NullRing => nullDereference
  | Ring chain =>
      match rev chain with
      | [] => ret (None, ring)
      | entry :: before => ret (Some entry, Ring (rev before))
      end
  end.

(** Modelled from the spec: waitQueue.h is not among the sources. The queue
    is FIFO: a waiter is appended at the end, the earliest one is notified
    first, and notifying runs the waiter's own continuation with the
    context it is given. *)
Abbreviation WaitQueue := (list Waiter) (only parsing).

Definition hasWaiters (queue : WaitQueue) : bool :=
  match queue with
  | [] => false
  | _ :: _ => true
  end.

Definition enqueueWaiter (queue : WaitQueue) (waiter : Waiter)
  : Z * WaitQueue :=
  (VDO_SUCCESS, queue ++ [waiter]).

Definition notifyNextWaiter (queue : WaitQueue) (context : Entry)
  : Outcome WaitQueue :=
  match queue with
  | [] => ret []
  | waiter :: rest => emit (Invoke waiter context) ;;; ret rest
  end.

(** [struct vioPool]. The counters are a [size_t] and a [uint64_t], both 64
    bits wide; [buffer] tells whether [pool->buffer] points to memory. The
    payload of [entries] (buffer slice, context, VIO) is not looked at by
    the pool: an entry is its index, and its ring node is linked exactly when
    the index is on a ring. *)
Record VIOPool : Type := mkVIOPool {
  size : Z;
  available : RingNode;
  waiting : WaitQueue;
  busyCount : Z;
  busy : RingNode;
  outageCount : Z;
  buffer : bool
}.

Definition setSize (v : Z) (p : VIOPool) : VIOPool :=
  mkVIOPool v (available p) (waiting p) (busyCount p) (busy p)
            (outageCount p) (buffer p).
Definition setAvailable (v : RingNode) (p : VIOPool) : VIOPool :=
  mkVIOPool (size p) v (waiting p) (busyCount p) (busy p)
            (outageCount p) (buffer p).
Definition setWaiting (v : WaitQueue) (p : VIOPool) : VIOPool :=
  mkVIOPool (size p) (available p) v (busyCount p) (busy p)
            (outageCount p) (buffer p).
Definition setBusyCount (v : Z) (p : VIOPool) : VIOPool :=
  mkVIOPool (size p) (available p) (waiting p) v (busy p)
            (outageCount p) (buffer p).
Definition setBusy (v : RingNode) (p : VIOPool) : VIOPool :=
  mkVIOPool (size p) (available p) (waiting p) (busyCount p) v
            (outageCount p) (buffer p).
Definition setOutageCount (v : Z) (p : VIOPool) : VIOPool :=
  mkVIOPool (size p) (available p) (waiting p) (busyCount p) (busy p)
            v (buffer p).
Definition setBuffer (v : bool) (p : VIOPool) : VIOPool :=
  mkVIOPool (size p) (available p) (waiting p) (busyCount p) (busy p)
            (outageCount p) v.

(** Modelled from the spec: memoryAlloc.h is not among the sources. The
    counters of a pool count from construction and the code never assigns
    them, so the memory [ALLOCATE_EXTENDED] hands out is zero-filled: sizes
    and counters 0, pointers [NULL], the wait queue empty. *)
Definition zeroedPool : VIOPool :=
  mkVIOPool 0 NullRing [] 0 NullRing 0 false.

(** The two heads of a pool. *)
Inductive Head : Type := AvailableHead | BusyHead.

(** [pushRingNode(head, node)]: the node leaves the ring it is on, then is
    linked in before the head, at the end of the chain. *)
Definition pushRingNode (head : Head) (entry : Entry) (pool : VIOPool)
  : Outcome VIOPool :=
  let pool := setAvailable (unspliceRingNode entry (available pool))
                (setBusy (unspliceRingNode entry (busy pool)) pool) in
  match head with
  | AvailableHead =>
      match available pool with
      | NullRing => nullDereference
      | Ring chain => ret (setAvailable (Ring (chain ++ [entry])) pool)
      end
  | BusyHead =>
      match busy pool with
      | NullRing => nullDereference
      | Ring chain => ret (setBusy (Ring (chain ++ [entry])) pool)
      end
  end.

(** The [while] loop of [freeVIOPool]: chop entries off the available ring
    and free the VIO of each until [chopRingNode] yields [NULL]. [fuel]
    bounds the number of turns; [freeVIOPool] passes one more than the ring
    holds, which is enough for the loop to end on an initialised ring
    ([freeAvailable_ring] below), so the first case is never reached. *)
Fixpoint freeAvailable (fuel : nat) (pool : VIOPool) : Outcome VIOPool :=
  match fuel with
  | O => nullDereference
  | S fuel' =>
      chopped <- chopRingNode (available pool) ;;
      match fst chopped with
      | None => ret pool
      | Some entry =>
          emit (Released (EntryVIO entry)) ;;;
          freeAvailable fuel' (setAvailable (snd chopped) pool)
      end
  end.

(** The [for] loop of [freeVIOPool] over the entries from [i] on. *)
Fixpoint checkEntries (count : nat) (i : Entry) (pool : VIOPool)
  : Outcome unit :=
  match count with
  | O => ret tt
  | S count' =>
      ASSERT_LOG_ONLY
        (negb (onRing i (available pool) || onRing i (busy pool)))
        (EntryStillInUse i) ;;;
      checkEntries count' (S i) pool
  end.

(** [freeVIOPool]; [poolPtr] is the pointer cell, [None] being [NULL], and
    the value returned is the cell afterwards. [FREE] of a [NULL] buffer
    releases nothing. *)
Definition freeVIOPool (poolPtr : option VIOPool) : Outcome (option VIOPool) :=
  match poolPtr with
  | None => ret None
  | Some pool =>
      ASSERT_LOG_ONLY (negb (hasWaiters (waiting pool)))
                      NoWaitersWhenFreed ;;;
      ASSERT_LOG_ONLY (busyCount pool =? 0)
                      (NoBusyCountWhenFreed (busyCount pool)) ;;;
      ASSERT_LOG_ONLY (isRingEmpty (busy pool)) NoBusyEntriesWhenFreed ;;;
      pool <- freeAvailable (S (ringLength (available pool))) pool ;;
      checkEntries (Z.to_nat (size pool)) O pool ;;;
      (if buffer pool then emit (Released PoolBuffer) else ret tt) ;;;
      emit (Released PoolMemory) ;;;
      ret None
  end.

(** The body of the [for] loop of [makeVIOPool], for the [count] entries
    from [i] on; it stops at the first constructor that fails and yields its
    result. *)
Fixpoint constructEntries (vioConstructor : Entry -> Z) (count : nat)
    (i : Entry) (pool : VIOPool) : Outcome (Z * VIOPool) :=
  match count with
  | O => ret (VDO_SUCCESS, pool)
  | S count' =>
      let result := vioConstructor i in
      if negb (result =? VDO_SUCCESS) then ret (result, pool)
      else
        emit (Allocated (EntryVIO i)) ;;;
        pool <- pushRingNode AvailableHead i pool ;;
        constructEntries vioConstructor count' (S i)
                         (setSize (wrap 64 (size pool + 1)) pool)
  end.

(** [makeVIOPool]. [allocatePool] and [allocateBuffer] are the results of
    [ALLOCATE_EXTENDED] and of [ALLOCATE], [vioConstructor i] the result of
    the constructor for entry [i]; [layer] and [context] are only handed on
    to the constructor and stored in the entries. The value is the status
    and what was stored through [poolPtr], [None] when nothing was. *)
Definition makeVIOPool (allocatePool allocateBuffer : Z) (size : Z)
    (vioConstructor : Entry -> Z) : Outcome (Z * option VIOPool) :=
  let result := allocatePool in
  if negb (result =? VDO_SUCCESS) then ret (result, None)
  else
    emit (Allocated PoolMemory) ;;;
    let pool := zeroedPool in
    let result := allocateBuffer in
    if negb (result =? VDO_SUCCESS)
    then freeVIOPool (Some pool) ;;; ret (result, None)
    else
      emit (Allocated PoolBuffer) ;;;
      let pool := setBuffer true pool in
      let pool := setAvailable initializeRing pool in
      let pool := setBusy initializeRing pool in
      built <- constructEntries vioConstructor (Z.to_nat size) O pool ;;
      if negb (fst built =? VDO_SUCCESS)
      then freeVIOPool (Some (snd built)) ;;; ret (fst built, None)
      else ret (VDO_SUCCESS, Some (snd built)).

Definition isVIOPoolBusy (pool : VIOPool) : bool :=
  negb (busyCount pool =? 0).

(** [acquireVIOFromPool]: the status and the pool afterwards. *)
Definition acquireVIOFromPool (pool : VIOPool) (waiter : Waiter)
  : Outcome (Z * VIOPool) :=
  if isRingEmpty (available pool) then
    let pool := setOutageCount (wrap 64 (outageCount pool + 1)) pool in
    let queued := enqueueWaiter (waiting pool) waiter in
    ret (fst queued, setWaiting (snd queued) pool)
  else
    let pool := setBusyCount (wrap 64 (busyCount pool + 1)) pool in
    chopped <- chopRingNode (available pool) ;;
    match fst chopped with
    | None => nullDereference
    | Some entry =>
        pool <- pushRingNode BusyHead entry
                  (setAvailable (snd chopped) pool) ;;
        emit (Invoke waiter entry) ;;;
        ret (VDO_SUCCESS, pool)
    end.

(** [returnVIOToPool]: the pool afterwards. *)
Definition returnVIOToPool (pool : VIOPool) (entry : Entry)
  : Outcome VIOPool :=
  emit (ClearErrorHandler entry) ;;;
  if hasWaiters (waiting pool) then
    queue <- notifyNextWaiter (waiting pool) entry ;;
    ret (setWaiting queue pool)
  else
    pool <- pushRingNode AvailableHead entry pool ;;
    ret (setBusyCount (wrap 64 (busyCount pool - 1)) pool).

Definition getVIOPoolOutageCount (pool : VIOPool) : Z := outageCount pool.

(** [acquireVIOFromPool] called for each of [waiters] in turn, with no
    release in between: what each call did and yielded, and the pool after
    the last one when all of them returned. *)
Fixpoint acquireEach (pool : VIOPool) (waiters : list Waiter)
  : list (Outcome Z) * option VIOPool :=
  match waiters with
  | [] => ([], Some pool)
  | waiter :: rest =>
      let call := acquireVIOFromPool pool waiter in
      match returned call with
      | None => ([mkOutcome (events call) None], None)
      | Some result =>
          let later := acquireEach (snd result) rest in
          (mkOutcome (events call) (Some (fst result)) :: fst later,
           snd later)
      end
  end.

(** A call that returned [VDO_SUCCESS] after it ran the continuation of
    [waiter] with [entry], and did nothing else. *)
Definition grantedNow (grant : Waiter * Entry) : Outcome Z :=
  mkOutcome [Invoke (fst grant) (snd grant)] (Some VDO_SUCCESS).

(** The assertions a list of events reports as failed. *)
Definition failedAssertions (evs : list Event) : list PoolAssertion :=
  flat_map (fun e => match e with
                     | AssertionFailed assertion => [assertion]
                     | _ => []
                     end) evs.

Definition resource_eq_dec (r1 r2 : Resource) : {r1 = r2} + {r1 <> r2}.
Proof. decide equality. apply Nat.eq_dec. Defined.

(** The resources a list of events leaves allocated, on top of [held]. *)
Fixpoint outstanding (held : list Resource) (evs : list Event)
  : list Resource :=
  match evs with
  | [] => held
  | Allocated r :: evs' => outstanding (r :: held) evs'
  | Released r :: evs' => outstanding (remove resource_eq_dec r held) evs'
  | _ :: evs' => outstanding held evs'
  end.

(** The entries of a pool of [n] entries. *)
Definition entriesOf (pool : VIOPool) : list Entry :=
  seq 0 (Z.to_nat (size pool)).

(** The invariant of a constructed pool: both rings are initialised, the
    length of the available list plus [busyCount] is [size], and every entry
    is once on the available list or once on the busy list. *)
Definition poolInvariant (pool : VIOPool) : Prop :=
  exists a b : list Entry,
    available pool = Ring a
    /\ busy pool = Ring b
    /\ Z.of_nat (length a) + busyCount pool = size pool
    /\ Permutation (a ++ b) (entriesOf pool)
    /\ size pool < 2 ^ 64.

(** Every entry is back on the available list. *)
Definition allAvailable (pool : VIOPool) : Prop :=
  exists a : list Entry,
    available pool = Ring a
    /\ busy pool = Ring []
    /\ Permutation a (entriesOf pool).

(** The pool a construction stores when every step of it succeeded: [n]
    entries, all available in index order, nothing busy, nobody waiting. *)
Definition freshPool (n : nat) : VIOPool :=
  mkVIOPool (Z.of_nat n) (Ring (seq 0 n)) [] 0 (Ring []) 0 true.

(** What teardown gives back after the VIOs: the buffer, if there is one,
    and the pool itself. *)
Definition givenBack (pool : VIOPool) : list Event :=
  (if buffer pool then [Released PoolBuffer] else [])
  ++ [Released PoolMemory].

End VIOPool.

(** ** slabScrubberInternals.h *)

Module SlabScrubber.

(** A slab is known by its identity. *)
Abbreviation Slab := nat (only parsing).

(** Modelled from the spec: adminState.h is not among the sources; the
    states are the six the scrubber's state machine names. *)
Inductive AdminState : Type :=
| NORMAL
| SUSPENDING
| SUSPENDED
| RESUMING
| QUIESCING
| QUIESCENT.

Inductive Priority : Type := HighPriority | NormalPriority.

(** [struct slabScrubber], with the fields the scheduling of slabs reads:
    the two queues, the administrative state, the restriction flag and the
    slab in flight. Both queues run from the slab queued first to the one
    queued last. *)
Record SlabScrubber : Type := mkSlabScrubber {
  highPrioritySlabs : list Slab;
  slabs : list Slab;
  adminState : AdminState;
  highPriorityOnly : bool;
  slab : option Slab
}.

Inductive ScrubEvent : Type :=
| Started (priority : Priority) (s : Slab)
| Abandoned (s : Slab).

Definition unqueue (s : Slab) (queue : list Slab) : list Slab :=
  remove Nat.eq_dec s queue.

(** Modelled from the spec: slabScrubber.c is not among the sources. A slab
    is a member of at most one of the two queues, and both are FIFO: a slab
    that is queued leaves the queue it may be on and goes to the end of the
    one asked for. *)
Definition enqueueSlab (scrubber : SlabScrubber) (s : Slab)
    (priority : Priority) : SlabScrubber :=
  let high := unqueue s (highPrioritySlabs scrubber) in
  let normal := unqueue s (slabs scrubber) in
  match priority with
  | HighPriority =>
      mkSlabScrubber (high ++ [s]) normal (adminState scrubber)
                     (highPriorityOnly scrubber) (slab scrubber)
  | NormalPriority =>
      mkSlabScrubber high (normal ++ [s]) (adminState scrubber)
                     (highPriorityOnly scrubber) (slab scrubber)
  end.

(** Modelled from the spec: slabScrubber.c is not among the sources. One
    scrub step: the slab in flight, if any, is finished; a scrubber that is
    suspending becomes suspended; a scrubber in its normal state starts the
    slab at the front of the high-priority queue, and when that queue is
    empty the slab at the front of the normal queue unless only
    high-priority slabs are to be scrubbed. In every other state no slab is
    started. *)
Definition scrubStep (scrubber : SlabScrubber)
  : SlabScrubber * list ScrubEvent :=
  match adminState scrubber with
  | NORMAL =>
      match highPrioritySlabs scrubber with
      | s :: rest =>
          (mkSlabScrubber rest (slabs scrubber) NORMAL
                          (highPriorityOnly scrubber) (Some s),
           [Started HighPriority s])
      | [] =>
          if highPriorityOnly scrubber
          then (mkSlabScrubber [] (slabs scrubber) NORMAL true None, [])
          else
            match slabs scrubber with
            | s :: rest =>
                (mkSlabScrubber [] rest NORMAL false (Some s),
                 [Started NormalPriority s])
            | [] => (mkSlabScrubber [] [] NORMAL false None, [])
            end
      end
  | SUSPENDING =>
      (mkSlabScrubber (highPrioritySlabs scrubber) (slabs scrubber)
                      SUSPENDED (highPriorityOnly scrubber) None, [])
  | other =>
      (mkSlabScrubber (highPrioritySlabs scrubber) (slabs scrubber)
                      other (highPriorityOnly scrubber) None, [])
  end.

Definition setAdminState (state : AdminState) (scrubber : SlabScrubber)
  : SlabScrubber :=
  mkSlabScrubber (highPrioritySlabs scrubber) (slabs scrubber) state
                 (highPriorityOnly scrubber) (slab scrubber).

(** Modelled from the spec: slabScrubber.c is not among the sources. The
    requests of the admin coordinator: suspending leaves the normal state,
    resuming returns to it from the suspended one (through [RESUMING]), and
    quiescing, from the normal or the suspended state, ends in [QUIESCENT]
    (through [QUIESCING]) with the slabs still queued abandoned. *)
Definition suspendScrubbing (scrubber : SlabScrubber) : SlabScrubber :=
  match adminState scrubber with
  | NORMAL => setAdminState SUSPENDING scrubber
  | _ => scrubber
  end.

Definition resumeScrubbing (scrubber : SlabScrubber) : SlabScrubber :=
  match adminState scrubber with
  | SUSPENDED => setAdminState NORMAL (setAdminState RESUMING scrubber)
  | _ => scrubber
  end.

Definition quiesceScrubbing (scrubber : SlabScrubber)
  : SlabScrubber * list ScrubEvent :=
  match adminState scrubber with
  | NORMAL | SUSPENDED =>
      (mkSlabScrubber [] [] QUIESCENT (highPriorityOnly scrubber)
                      (slab scrubber),
       map Abandoned (highPrioritySlabs scrubber ++ slabs scrubber))
  | _ => (scrubber, [])
  end.

(** Modelled from the spec: the external flag that restricts scrubbing to
    high-priority slabs, set or cleared. *)
Definition setHighPriorityOnly (only : bool) (scrubber : SlabScrubber)
  : SlabScrubber :=
  mkSlabScrubber (highPrioritySlabs scrubber) (slabs scrubber)
                 (adminState scrubber) only (slab scrubber).

(** What can happen to a scrubber, and an interleaving of such operations
    run from a state. *)
Inductive Operation : Type :=
| Enqueue (s : Slab) (priority : Priority)
| ScrubStep
| Restrict (only : bool)
| Suspend
| Resume
| Quiesce.

Definition step (scrubber : SlabScrubber) (op : Operation)
  : SlabScrubber * list ScrubEvent :=
  match op with
  | Enqueue s priority => (enqueueSlab scrubber s priority, [])
  | ScrubStep => scrubStep scrubber
  | Restrict only => (setHighPriorityOnly only scrubber, [])
  | Suspend => (suspendScrubbing scrubber, [])
  | Resume => (resumeScrubbing scrubber, [])
  | Quiesce => quiesceScrubbing scrubber
  end.

Fixpoint run (scrubber : SlabScrubber) (ops : list Operation)
  : SlabScrubber * list ScrubEvent :=
  match ops with
  | [] => (scrubber, [])
  | op :: ops' =>
      let '(scrubber', evs) := step scrubber op in
      let '(final, evs') := run scrubber' ops' in
      (final, evs ++ evs')
  end.

(** The same run, step by step: the state each operation found and the
    events it caused. *)
Fixpoint history (scrubber : SlabScrubber) (ops : list Operation)
  : list (SlabScrubber * list ScrubEvent) :=
  match ops with
  | [] => []
  | op :: ops' =>
      (scrubber, snd (step scrubber op))
      :: history (fst (step scrubber op)) ops'
  end.

(** A step that started a slab of the normal queue found the high-priority
    queue empty. *)
Definition highPriorityFirst (entry : SlabScrubber * list ScrubEvent)
  : Prop :=
  forall s : Slab,
    In (Started NormalPriority s) (snd entry) ->
    highPrioritySlabs (fst entry) = [].

Definition isQuiesce (op : Operation) : bool :=
  match op with
  | Quiesce => true
  | _ => false
  end.

(** A slab waits in one of the two queues. *)
Definition queued (s : Slab) (scrubber : SlabScrubber) : Prop :=
  In s (slabs scrubber) \/ In s (highPrioritySlabs scrubber).

(** Scrubbing of a slab was started, at either priority. *)
Definition started (s : Slab) (evs : list ScrubEvent) : Prop :=
  exists priority : Priority, In (Started priority s) evs.

End SlabScrubber.

(** ** Uses of the pool *)

Module VIOPoolUse.
Import VIOPool.
Local Open Scope pool_scope.

(** [returnVIOToPool] called for each of [entries] in turn, with no acquire
    in between: the events of each call, and the pool after the last one
    when all of them returned. *)
Fixpoint releaseEach (pool : VIOPool) (entries : list Entry)
  : list (list Event) * option VIOPool :=
  match entries with
  | [] => ([], Some pool)
  | entry :: rest =>
      let call := returnVIOToPool pool entry in
      match returned call with
      | None => ([events call], None)
      | Some pool' =>
          let later := releaseEach pool' rest in
          (events call :: fst later, snd later)
      end
  end.

(** The waiters of [waiters] whose acquire, in [calls], ran no continuation:
    the ones that were queued. *)
Fixpoint queuedAmong (waiters : list Waiter) (calls : list (Outcome Z))
  : list Waiter :=
  match waiters, calls with
  | waiter :: waiters', call :: calls' =>
      match events call with
      | [] => waiter :: queuedAmong waiters' calls'
      | _ :: _ => queuedAmong waiters' calls'
      end
  | _, _ => []
  end.


(** What a user of a pool does with it. *)
Inductive Operation : Type :=
| Acquire (waiter : Waiter)
| Release (entry : Entry).




(** The acquires among [ops]. *)
Definition acquires (ops : list Operation) : nat :=
  length (filter (fun op => match op with
                            | Acquire _ => true
                            | Release _ => false
                            end) ops).

End VIOPoolUse.

(** ** atomic.h

    The cells and what each operation does to the value of a cell as the
    thread that calls it sees it. The fences ([loadFence], [storeFence],
    [memoryFence], [gccFence]) only order memory accesses and change no
    value; the order of accesses between threads is not part of this
    model. *)

Module Atomic.

Record Atomic32 : Type := mkAtomic32 { value32 : Z }.

Record Atomic64 : Type := mkAtomic64 { value64 : Z }.

Record AtomicBool : Type := mkAtomicBool { valueBool : Atomic32 }.

(** The values the cells can hold. *)
Definition isUint32 (v : Z) : Prop := 0 <= v < 2 ^ 32.
Definition isUint64 (v : Z) : Prop := 0 <= v < 2 ^ 64.

(** The values of the signed [delta] arguments. *)
Definition isInt32 (d : Z) : Prop := - 2 ^ 31 <= d < 2 ^ 31.
Definition isInt64 (d : Z) : Prop := - 2 ^ 63 <= d < 2 ^ 63.

Definition atomicLoad32 (atom : Atomic32) : Z := value32 atom.

Definition atomicLoad64 (atom : Atomic64) : Z := value64 atom.

Definition atomicLoadBool (atom : AtomicBool) : bool :=
  0 <? atomicLoad32 (valueBool atom).

Definition atomicStore32 (atom : Atomic32) (newValue : Z) : Atomic32 :=
  mkAtomic32 newValue.

Definition atomicStore64 (atom : Atomic64) (newValue : Z) : Atomic64 :=
  mkAtomic64 newValue.

Definition atomicStoreBool (atom : AtomicBool) (newValue : bool)
  : AtomicBool :=
  mkAtomicBool (atomicStore32 (valueBool atom) (if newValue then 1 else 0)).

(** The compiler's [__sync_add_and_fetch] on an unsigned [w]-bit cell: the
    signed [delta] is converted to the type of the cell, added to it with
    wrap-around, and the new value is both stored and returned. *)
Definition sync_add_and_fetch (w value delta : Z) : Z :=
  wrap w (value + wrap w delta).

(** The compiler's [__sync_bool_compare_and_swap]: whether the cell held
    [requiredValue], and the value of the cell afterwards. *)
Definition sync_bool_compare_and_swap (value requiredValue newValue : Z)
  : bool * Z :=
  if value =? requiredValue then (true, newValue) else (false, value).

(** [atomicAdd32] and [atomicAdd64]: the value returned and the cell
    afterwards. *)
Definition atomicAdd32 (atom : Atomic32) (delta : Z) : Z * Atomic32 :=
  let result := sync_add_and_fetch 32 (value32 atom) delta in
  (result, mkAtomic32 result).

Definition atomicAdd64 (atom : Atomic64) (delta : Z) : Z * Atomic64 :=
  let result := sync_add_and_fetch 64 (value64 atom) delta in
  (result, mkAtomic64 result).

Definition compareAndSwap32 (atom : Atomic32) (requiredValue newValue : Z)
  : bool * Atomic32 :=
  let result :=
    sync_bool_compare_and_swap (value32 atom) requiredValue newValue in
  (fst result, mkAtomic32 (snd result)).

Definition compareAndSwap64 (atom : Atomic64) (requiredValue newValue : Z)
  : bool * Atomic64 :=
  let result :=
    sync_bool_compare_and_swap (value64 atom) requiredValue newValue in
  (fst result, mkAtomic64 (snd result)).

Definition compareAndSwapBool (atom : AtomicBool)
    (requiredValue newValue : bool) : bool * AtomicBool :=
  let result :=
    compareAndSwap32 (valueBool atom) (if requiredValue then 1 else 0)
                     (if newValue then 1 else 0) in
  (fst result, mkAtomicBool (snd result)).

Definition relaxedLoad32 (atom : Atomic32) : Z := value32 atom.

Definition relaxedLoad64 (atom : Atomic64) : Z := value64 atom.

Definition relaxedLoadBool (atom : AtomicBool) : bool :=
  0 <? relaxedLoad32 (valueBool atom).

Definition relaxedStore32 (atom : Atomic32) (newValue : Z) : Atomic32 :=
  mkAtomic32 newValue.

Definition relaxedStore64 (atom : Atomic64) (newValue : Z) : Atomic64 :=
  mkAtomic64 newValue.

Definition relaxedStoreBool (atom : AtomicBool) (newValue : bool)
  : AtomicBool :=
  mkAtomicBool (relaxedStore32 (valueBool atom) (if newValue then 1 else 0)).

(** [relaxedAdd32] and [relaxedAdd64]: the sum is formed in the unsigned
    type of the cell, to which [delta] is converted. *)
Definition relaxedAdd32 (atom : Atomic32) (delta : Z) : Z * Atomic32 :=
  let newValue := wrap 32 (relaxedLoad32 atom + wrap 32 delta) in
  (newValue, relaxedStore32 atom newValue).

Definition relaxedAdd64 (atom : Atomic64) (delta : Z) : Z * Atomic64 :=
  let newValue := wrap 64 (relaxedLoad64 atom + wrap 64 delta) in
  (newValue, relaxedStore64 atom newValue).

(** A boolean cell that holds one of the two values the boolean stores
    write. *)
Definition holdsBool (atom : AtomicBool) : Prop :=
  value32 (valueBool atom) = 0 \/ value32 (valueBool atom) = 1.

End Atomic.

(** * Properties *)

Lemma wrap_small (w x : Z) : 0 <= x < 2 ^ w -> wrap w x = x.
Proof. intros H. unfold wrap. now apply Z.mod_small. Qed.

(** ** Journal points *)

Module JournalPointFacts.
Import JournalPoint.

(** A value below 2^16 and a multiple of 2^16 share no bit. *)
Lemma land_high_low (h l : Z) :
  0 <= l < 2 ^ 16 -> Z.land (h * 2 ^ 16) l = 0.
Proof.
  intros Hl. apply Z.bits_inj'. intros n Hn.
  rewrite Z.land_spec, Z.bits_0.
  destruct (Z.lt_ge_cases n 16) as [Hlow | Hhigh].
  - rewrite Z.mul_pow2_bits_low by lia. reflexivity.
  - replace l with (l mod 2 ^ 16) by (apply Z.mod_small; lia).
    rewrite Z.mod_pow2_bits_high by lia. apply andb_false_r.
Qed.

Lemma lor_high_low (h l : Z) :
  0 <= l < 2 ^ 16 -> Z.lor (h * 2 ^ 16) l = h * 2 ^ 16 + l.
Proof.
  intros Hl. pose proof (land_high_low h l Hl) as Hdisjoint.
  rewrite <- Z.lxor_lor by exact Hdisjoint.
  symmetry. now apply Z.add_nocarry_lxor.
Qed.

(** The 64-bit word [packJournalPoint] builds, as a sum. *)
Lemma encodedPoint_pack (p : JournalPoint) :
  inRange p ->
  encodedPoint (packJournalPoint p)
  = (sequenceNumber p mod 2 ^ 48) * 2 ^ 16 + entryCount p.
Proof.
  intros [Hs He]. unfold packJournalPoint, wrap. cbn [encodedPoint].
  rewrite Z.shiftl_mul_pow2 by lia.
  change (2 ^ 64) with (2 ^ 48 * 2 ^ 16).
  rewrite Z.mul_mod_distr_r by lia.
  now apply lor_high_low.
Qed.

Lemma advanceTimes_S (n : nat) (e : Z) (p : JournalPoint) :
  advanceTimes (S n) e p = advanceJournalPoint (advanceTimes n e p) e.
Proof. reflexivity. Qed.

(** Below the block size, [k] advances only count entries. *)
Lemma advanceTimes_below (e : Z) (p : JournalPoint) (k : nat) :
  isEntryCount e -> entryCount p = 0 -> Z.of_nat k < e ->
  advanceTimes k e p = mkJournalPoint (sequenceNumber p) (Z.of_nat k).
Proof.
  intros He H0. induction k as [| k IH]; intros Hk.
  - destruct p as [s c]. cbn in *. now subst c.
  - rewrite advanceTimes_S, IH by lia.
    unfold advanceJournalPoint. cbn [sequenceNumber entryCount].
    unfold isEntryCount in He.
    rewrite wrap_small by lia.
    destruct (Z.eqb_spec (Z.of_nat k + 1) e) as [Heq | Hne]; [lia |].
    f_equal. lia.
Qed.

(** C3: for every journal point [p] (a 64-bit sequence number and a 16-bit
    entry count), [unpack (pack p)] has the entry count of [p] and the
    sequence number of [p] modulo 2^48; when the sequence number is below
    2^48, [unpack (pack p)] is [p]. *)
Theorem unpack_pack (p : JournalPoint) :
  inRange p ->
  entryCount (unpackJournalPoint (packJournalPoint p)) = entryCount p
  /\ sequenceNumber (unpackJournalPoint (packJournalPoint p))
     = sequenceNumber p mod 2 ^ 48
  /\ (sequenceNumber p < 2 ^ 48 ->
      unpackJournalPoint (packJournalPoint p) = p).
Proof.
  intros Hp. pose proof (encodedPoint_pack p Hp) as Henc.
  destruct Hp as [Hs He].
  assert (Hh : 0 <= sequenceNumber p mod 2 ^ 48 < 2 ^ 48)
    by (apply Z.mod_pos_bound; lia).
  assert (Hcount :
    entryCount (unpackJournalPoint (packJournalPoint p)) = entryCount p).
  { unfold unpackJournalPoint. cbn [entryCount]. rewrite Henc.
    change 65535 with (Z.ones 16). rewrite Z.land_ones by lia.
    rewrite Z.add_comm, Z.mod_add by lia.
    rewrite Z.mod_small by lia. now apply wrap_small. }
  assert (Hseq :
    sequenceNumber (unpackJournalPoint (packJournalPoint p))
    = sequenceNumber p mod 2 ^ 48).
  { unfold unpackJournalPoint. cbn [sequenceNumber]. rewrite Henc.
    rewrite Z.shiftr_div_pow2 by lia.
    rewrite Z.div_add_l by lia.
    rewrite Z.div_small by lia. lia. }
  repeat split; [exact Hcount | exact Hseq |].
  intros Hsmall.
  destruct (unpackJournalPoint (packJournalPoint p)) as [s c] eqn:Hu.
  destruct p as [s0 c0]. cbn [sequenceNumber entryCount] in *.
  subst c. rewrite Hseq, Z.mod_small by lia. reflexivity.
Qed.

Lemma unpack_pack_witness :
  let p := mkJournalPoint (2 ^ 48 + 5) 7 in
  inRange p
  /\ unpackJournalPoint (packJournalPoint p) = mkJournalPoint 5 7
  /\ unpackJournalPoint (packJournalPoint (mkJournalPoint 5 7))
     = mkJournalPoint 5 7.
Proof.
  cbv zeta. split; [unfold inRange; cbn; lia |].
  split; [reflexivity |].
  apply (unpack_pack (mkJournalPoint 5 7)).
  - unfold inRange; cbn; lia.
  - cbn; lia.
Defined.

(** C4: from a journal point whose entry count is 0, and for a block size
    [entriesPerBlock > 0], [entriesPerBlock] advances give entry count 0
    and the sequence number plus one (as the 64-bit counter counts: the
    sum itself whenever it fits), and [k < entriesPerBlock] advances leave
    the sequence number alone and give entry count [k]. *)
Theorem advance_carry (p : JournalPoint) (entriesPerBlock : Z) :
  inRange p -> isEntryCount entriesPerBlock ->
  entryCount p = 0 -> 0 < entriesPerBlock ->
  advanceTimes (Z.to_nat entriesPerBlock) entriesPerBlock p
  = mkJournalPoint (wrap 64 (sequenceNumber p + 1)) 0
  /\ (sequenceNumber p + 1 < 2 ^ 64 ->
      advanceTimes (Z.to_nat entriesPerBlock) entriesPerBlock p
      = mkJournalPoint (sequenceNumber p + 1) 0)
  /\ (forall k : nat, Z.of_nat k < entriesPerBlock ->
      advanceTimes k entriesPerBlock p
      = mkJournalPoint (sequenceNumber p) (Z.of_nat k)).
Proof.
  intros Hp He H0 Hpos.
  assert (Hfull :
    advanceTimes (Z.to_nat entriesPerBlock) entriesPerBlock p
    = mkJournalPoint (wrap 64 (sequenceNumber p + 1)) 0).
  { replace (Z.to_nat entriesPerBlock)
      with (S (Z.to_nat (entriesPerBlock - 1))) by lia.
    rewrite advanceTimes_S.
    rewrite (advanceTimes_below entriesPerBlock p) by (auto; lia).
    unfold advanceJournalPoint. cbn [sequenceNumber entryCount].
    unfold isEntryCount in He.
    rewrite wrap_small by lia.
    destruct (Z.eqb_spec (Z.of_nat (Z.to_nat (entriesPerBlock - 1)) + 1)
                         entriesPerBlock) as [_ | Hne]; [reflexivity | lia]. }
  split; [exact Hfull |]. split.
  - intros Hfit. rewrite Hfull. destruct Hp as [Hs _].
    now rewrite wrap_small by lia.
  - intros k Hk. now apply advanceTimes_below.
Qed.

Lemma advance_carry_witness :
  advanceTimes 3 3 (mkJournalPoint 9 0) = mkJournalPoint 10 0
  /\ advanceTimes 2 3 (mkJournalPoint 9 0) = mkJournalPoint 9 2.
Proof.
  assert (Hr : inRange (mkJournalPoint 9 0))
    by (unfold inRange; cbn; lia).
  assert (He : isEntryCount 3) by (unfold isEntryCount; lia).
  destruct (advance_carry (mkJournalPoint 9 0) 3 Hr He eq_refl
              ltac:(lia)) as (_ & Hfit & Hbelow).
  split.
  - apply Hfit. cbn. lia.
  - apply (Hbelow 2%nat). lia.
Defined.

(** The two comparisons as statements about the fields. *)
Lemma beforeJournalPoint_spec (a b : JournalPoint) :
  beforeJournalPoint a b = true
  <-> sequenceNumber a < sequenceNumber b
      \/ (sequenceNumber a = sequenceNumber b
          /\ entryCount a < entryCount b).
Proof.
  unfold beforeJournalPoint.
  rewrite orb_true_iff, andb_true_iff, !Z.ltb_lt, Z.eqb_eq. tauto.
Qed.

Lemma areEquivalentJournalPoints_spec (a b : JournalPoint) :
  areEquivalentJournalPoints a b = true
  <-> sequenceNumber a = sequenceNumber b /\ entryCount a = entryCount b.
Proof.
  unfold areEquivalentJournalPoints.
  rewrite andb_true_iff, !Z.eqb_eq. tauto.
Qed.

(** C5: [before] is a strict total order on journal points: it is
    transitive, and of [before a b], [before b a] and [equivalent a b]
    exactly one holds. *)
Theorem before_strict_total_order :
  (forall a b c : JournalPoint,
      beforeJournalPoint a b = true -> beforeJournalPoint b c = true ->
      beforeJournalPoint a c = true)
  /\ (forall a b : JournalPoint,
        exactlyOne (beforeJournalPoint a b) (beforeJournalPoint b a)
                   (areEquivalentJournalPoints a b)).
Proof.
  split.
  - intros a b c Hab Hbc.
    rewrite beforeJournalPoint_spec in *. lia.
  - intros a b. unfold exactlyOne.
    destruct (beforeJournalPoint a b) eqn:Hab;
      destruct (beforeJournalPoint b a) eqn:Hba;
      destruct (areEquivalentJournalPoints a b) eqn:Heq;
      try (rewrite beforeJournalPoint_spec in Hab);
      try (rewrite beforeJournalPoint_spec in Hba);
      try (rewrite areEquivalentJournalPoints_spec in Heq);
      try (apply not_true_iff_false in Hab;
           rewrite beforeJournalPoint_spec in Hab);
      try (apply not_true_iff_false in Hba;
           rewrite beforeJournalPoint_spec in Hba);
      try (apply not_true_iff_false in Heq;
           rewrite areEquivalentJournalPoints_spec in Heq);
      try lia; intuition congruence.
Qed.

Lemma before_strict_total_order_witness :
  beforeJournalPoint (mkJournalPoint 1 9) (mkJournalPoint 3 0) = true
  /\ exactlyOne
       (beforeJournalPoint (mkJournalPoint 2 4) (mkJournalPoint 2 4))
       (beforeJournalPoint (mkJournalPoint 2 4) (mkJournalPoint 2 4))
       (areEquivalentJournalPoints (mkJournalPoint 2 4)
                                   (mkJournalPoint 2 4)).
Proof.
  split.
  - apply (proj1 before_strict_total_order
             (mkJournalPoint 1 9) (mkJournalPoint 2 4) (mkJournalPoint 3 0));
      reflexivity.
  - apply (proj2 before_strict_total_order).
Defined.

(** C9: a journal point is valid exactly when its sequence number is not 0;
    with a sequence number above 0 it is valid, with 0 it is not. *)
Theorem isValid_iff_nonzero (p : JournalPoint) :
  inRange p ->
  (isValidJournalPoint (Some p) = true <-> sequenceNumber p <> 0)
  /\ (0 < sequenceNumber p -> isValidJournalPoint (Some p) = true)
  /\ (sequenceNumber p = 0 -> isValidJournalPoint (Some p) = false).
Proof.
  intros [Hs _]. cbn [isValidJournalPoint].
  repeat split.
  - intros H. apply Z.ltb_lt in H. lia.
  - intros H. apply Z.ltb_lt. lia.
  - intros H. apply Z.ltb_lt. lia.
  - intros H. apply Z.ltb_ge. lia.
Qed.

Lemma isValid_iff_nonzero_witness :
  isValidJournalPoint (Some (mkJournalPoint 4 0)) = true
  /\ isValidJournalPoint (Some (mkJournalPoint 0 11)) = false.
Proof.
  assert (H4 : inRange (mkJournalPoint 4 0))
    by (unfold inRange; cbn; lia).
  assert (H0 : inRange (mkJournalPoint 0 11))
    by (unfold inRange; cbn; lia).
  split.
  - apply (isValid_iff_nonzero (mkJournalPoint 4 0) H4). cbn. lia.
  - apply (isValid_iff_nonzero (mkJournalPoint 0 11) H0). reflexivity.
Defined.

End JournalPointFacts.

(** ** The VIO pool *)

Module VIOPoolFacts.
Import VIOPool.
Local Open Scope pool_scope.

Lemma bind_ret {A B : Type} (a : A) (f : A -> Outcome B) :
  bind (ret a) f = f a.
Proof. unfold bind, ret. cbn. now destruct (f a). Qed.

Lemma bind_emit {B : Type} (e : Event) (f : unit -> Outcome B) :
  bind (emit e) f = mkOutcome (e :: events (f tt)) (returned (f tt)).
Proof. reflexivity. Qed.

Lemma bind_returned {A B : Type} (evs : list Event) (a : A)
    (f : A -> Outcome B) :
  bind (mkOutcome evs (Some a)) f
  = mkOutcome (evs ++ events (f a)) (returned (f a)).
Proof. reflexivity. Qed.

Ltac pool_simpl :=
  unfold setSize, setAvailable, setWaiting, setBusyCount, setBusy,
    setOutageCount, setBuffer;
  cbn [size available waiting busyCount busy outageCount buffer remove].

Lemma chopRingNode_last (chain : list Entry) (entry : Entry) :
  chopRingNode (Ring (chain ++ [entry])) = ret (Some entry, Ring chain).
Proof.
  unfold chopRingNode. rewrite rev_unit. now rewrite rev_involutive.
Qed.

(** Pushing an entry that is on neither ring. *)
Lemma pushRingNode_available (pool : VIOPool) (entry : Entry)
    (a b : list Entry) :
  available pool = Ring a -> busy pool = Ring b ->
  ~ In entry a ->
  pushRingNode AvailableHead entry pool
  = ret (setAvailable (Ring (a ++ [entry]))
           (setBusy (Ring (remove Nat.eq_dec entry b)) pool)).
Proof.
  intros Ha Hb Hna. destruct pool as [sz av q bc bs oc buf].
  cbn in Ha, Hb. subst av bs. unfold pushRingNode. cbn.
  rewrite notin_remove by assumption. reflexivity.
Qed.

Lemma pushRingNode_busy (pool : VIOPool) (entry : Entry)
    (a b : list Entry) :
  available pool = Ring a -> busy pool = Ring b ->
  ~ In entry a -> ~ In entry b ->
  pushRingNode BusyHead entry pool
  = ret (setBusy (Ring (b ++ [entry])) pool).
Proof.
  intros Ha Hb Hna Hnb. destruct pool as [sz av q bc bs oc buf].
  cbn in Ha, Hb. subst av bs. unfold pushRingNode. cbn.
  rewrite !notin_remove by assumption. reflexivity.
Qed.

(** One turn of the construction loop whose constructor succeeds, from
    the pool that holds the entries below [i]. *)
Lemma constructEntries_step (ctor : Entry -> Z) (count i : nat)
    (q : WaitQueue) (bc oc : Z) (buf : bool) :
  Z.of_nat (S i) < 2 ^ 64 -> ctor i = VDO_SUCCESS ->
  let next :=
    constructEntries ctor count (S i)
      (mkVIOPool (Z.of_nat (S i)) (Ring (seq 0 (S i))) q bc (Ring []) oc buf)
  in
  constructEntries ctor (S count) i
    (mkVIOPool (Z.of_nat i) (Ring (seq 0 i)) q bc (Ring []) oc buf)
  = mkOutcome (Allocated (EntryVIO i) :: events next) (returned next).
Proof.
  intros Hfit Hok next. subst next.
  cbn [constructEntries]. rewrite Hok. cbn [Z.eqb negb VDO_SUCCESS].
  rewrite bind_emit.
  rewrite (pushRingNode_available _ i (seq 0 i) []); try reflexivity.
  2:{ rewrite in_seq. lia. }
  rewrite bind_ret. pool_simpl.
  rewrite wrap_small by lia.
  replace (Z.of_nat i + 1) with (Z.of_nat (S i)) by lia.
  rewrite seq_S. reflexivity.
Qed.

(** The loop when every constructor succeeds. *)
Lemma constructEntries_all (ctor : Entry -> Z) (count : nat) :
  forall (i : nat) (q : WaitQueue) (bc oc : Z) (buf : bool),
    Z.of_nat (i + count) < 2 ^ 64 ->
    (forall j : nat, (i <= j < i + count)%nat -> ctor j = VDO_SUCCESS) ->
    constructEntries ctor count i
      (mkVIOPool (Z.of_nat i) (Ring (seq 0 i)) q bc (Ring []) oc buf)
    = mkOutcome (map (fun j => Allocated (EntryVIO j)) (seq i count))
        (Some (VDO_SUCCESS,
               mkVIOPool (Z.of_nat (i + count)) (Ring (seq 0 (i + count)))
                         q bc (Ring []) oc buf)).
Proof.
  induction count as [| count IH]; intros i q bc oc buf Hfit Hok.
  - cbn. rewrite Nat.add_0_r. reflexivity.
  - rewrite constructEntries_step by (try apply Hok; lia).
    rewrite IH by (try lia; intros j Hj; apply Hok; lia).
    cbn [events returned seq map].
    replace (S i + count)%nat with (i + S count)%nat by lia. reflexivity.
Qed.

(** The loop when the constructor of entry [k] is the first to fail. *)
Lemma constructEntries_fails (ctor : Entry -> Z) (count : nat) :
  forall (i k : nat) (q : WaitQueue) (bc oc : Z) (buf : bool),
    Z.of_nat (i + count) < 2 ^ 64 ->
    (i <= k < i + count)%nat ->
    (forall j : nat, (i <= j < k)%nat -> ctor j = VDO_SUCCESS) ->
    ctor k <> VDO_SUCCESS ->
    constructEntries ctor count i
      (mkVIOPool (Z.of_nat i) (Ring (seq 0 i)) q bc (Ring []) oc buf)
    = mkOutcome (map (fun j => Allocated (EntryVIO j)) (seq i (k - i)))
        (Some (ctor k,
               mkVIOPool (Z.of_nat k) (Ring (seq 0 k)) q bc (Ring []) oc
                         buf)).
Proof.
  induction count as [| count IH]; intros i k q bc oc buf Hfit Hk Hok Hbad.
  - lia.
  - destruct (Nat.eq_dec i k) as [-> | Hne].
    + cbn [constructEntries].
      destruct (Z.eqb_spec (ctor k) VDO_SUCCESS) as [Heq | _];
        [contradiction |].
      cbn [negb]. rewrite Nat.sub_diag. reflexivity.
    + rewrite constructEntries_step by (try apply Hok; lia).
      rewrite (IH (S i) k) by (auto; try lia; intros; apply Hok; lia).
      cbn [events returned].
      replace (k - i)%nat with (S (k - S i)) by lia. reflexivity.
Qed.

(** The first constructor that fails, if one does. *)
Lemma first_failure (ctor : Entry -> Z) (n : nat) :
  (forall j : nat, (j < n)%nat -> ctor j = VDO_SUCCESS)
  \/ (exists k : nat, (k < n)%nat
        /\ (forall j : nat, (j < k)%nat -> ctor j = VDO_SUCCESS)
        /\ ctor k <> VDO_SUCCESS).
Proof.
  induction n as [| n [Hall | (k & Hk & Hbefore & Hbad)]].
  - left. intros j Hj. lia.
  - destruct (Z.eq_dec (ctor n) VDO_SUCCESS) as [Hn | Hn].
    + left. intros j Hj.
      destruct (Nat.eq_dec j n) as [-> | Hne]; [exact Hn | apply Hall; lia].
    + right. exists n. repeat split; [lia | | exact Hn].
      intros j Hj. now apply Hall.
  - right. exists k. repeat split; [lia | exact Hbefore | exact Hbad].
Qed.

(** The [while] loop of teardown empties an initialised available ring. *)
Lemma freeAvailable_ring (chopped : list Entry) :
  forall (fuel : nat) (pool : VIOPool),
    available pool = Ring (rev chopped) ->
    (length chopped < fuel)%nat ->
    freeAvailable fuel pool
    = mkOutcome (map (fun e => Released (EntryVIO e)) chopped)
                (Some (setAvailable (Ring []) pool)).
Proof.
  induction chopped as [| e chopped IH]; intros fuel pool Hav Hfuel.
  - destruct fuel as [| fuel]; [cbn in Hfuel; lia |].
    destruct pool as [sz av q bc bs oc buf]. cbn in Hav. subst av.
    reflexivity.
  - destruct fuel as [| fuel]; [cbn in Hfuel; lia |].
    cbn [freeAvailable]. rewrite Hav. cbn [rev].
    rewrite chopRingNode_last, bind_ret. cbn [fst snd].
    rewrite bind_emit, IH.
    + destruct pool; reflexivity.
    + destruct pool; reflexivity.
    + cbn in Hfuel. lia.
Qed.

(** With both rings empty no entry is found in use. *)
Lemma checkEntries_unlinked (count : nat) :
  forall (i : nat) (pool : VIOPool),
    available pool = Ring [] -> busy pool = Ring [] ->
    checkEntries count i pool = ret tt.
Proof.
  induction count as [| count IH]; intros i pool Ha Hb.
  - reflexivity.
  - cbn [checkEntries]. rewrite Ha, Hb. cbn.
    rewrite (IH (S i) pool Ha Hb). reflexivity.
Qed.

Lemma freeVIOPool_idle (pool : VIOPool) (a : list Entry) :
  waiting pool = [] -> busyCount pool = 0 ->
  available pool = Ring a -> busy pool = Ring [] ->
  freeVIOPool (Some pool)
  = mkOutcome (map (fun e => Released (EntryVIO e)) (rev a) ++ givenBack pool)
              (Some None).
Proof.
  intros Hq Hbc Ha Hb. unfold freeVIOPool, givenBack.
  rewrite Hq, Hbc, Hb, Ha. cbn [hasWaiters negb Z.eqb isRingEmpty ringLength].
  unfold ASSERT_LOG_ONLY. rewrite !bind_ret.
  rewrite (freeAvailable_ring (rev a)).
  2:{ now rewrite rev_involutive. }
  2:{ rewrite length_rev. lia. }
  rewrite bind_returned.
  rewrite checkEntries_unlinked.
  2:{ destruct pool; reflexivity. }
  2:{ destruct pool; cbn in *; assumption. }
  rewrite bind_ret.
  destruct pool as [sz av q bc bs oc [|]]; reflexivity.
Qed.

Lemma makeVIOPool_succeeds (n : nat) (ctor : Entry -> Z) :
  Z.of_nat n < 2 ^ 64 ->
  (forall j : nat, (j < n)%nat -> ctor j = VDO_SUCCESS) ->
  makeVIOPool VDO_SUCCESS VDO_SUCCESS (Z.of_nat n) ctor
  = mkOutcome (Allocated PoolMemory :: Allocated PoolBuffer
               :: map (fun j => Allocated (EntryVIO j)) (seq 0 n))
              (Some (VDO_SUCCESS, Some (freshPool n))).
Proof.
  intros Hfit Hok. unfold makeVIOPool. cbn [Z.eqb negb VDO_SUCCESS].
  rewrite !bind_emit. unfold zeroedPool, initializeRing. pool_simpl.
  rewrite Nat2Z.id.
  pose proof (constructEntries_all ctor n 0 [] 0 0 true) as Hloop.
  cbn [Z.of_nat seq Nat.add] in Hloop.
  rewrite Hloop by (auto; intros; apply Hok; lia).
  rewrite bind_returned. cbn [fst snd Z.eqb negb VDO_SUCCESS events returned].
  rewrite app_nil_r. reflexivity.
Qed.

Lemma makeVIOPool_pool_allocation_fails (ap ab size : Z)
    (ctor : Entry -> Z) :
  ap <> VDO_SUCCESS ->
  makeVIOPool ap ab size ctor = mkOutcome [] (Some (ap, None)).
Proof.
  intros Hap. unfold makeVIOPool.
  destruct (Z.eqb_spec ap VDO_SUCCESS) as [Heq | _]; [contradiction |].
  reflexivity.
Qed.

Lemma makeVIOPool_buffer_allocation_fails (ab size : Z)
    (ctor : Entry -> Z) :
  ab <> VDO_SUCCESS ->
  makeVIOPool VDO_SUCCESS ab size ctor
  = mkOutcome [Allocated PoolMemory; AssertionFailed NoBusyEntriesWhenFreed]
              None.
Proof.
  intros Hab. unfold makeVIOPool. cbn [Z.eqb negb VDO_SUCCESS].
  destruct (Z.eqb_spec ab VDO_SUCCESS) as [Heq | _]; [contradiction |].
  reflexivity.
Qed.

Lemma makeVIOPool_constructor_fails (n k : nat) (ctor : Entry -> Z) :
  Z.of_nat n < 2 ^ 64 -> (k < n)%nat ->
  (forall j : nat, (j < k)%nat -> ctor j = VDO_SUCCESS) ->
  ctor k <> VDO_SUCCESS ->
  makeVIOPool VDO_SUCCESS VDO_SUCCESS (Z.of_nat n) ctor
  = mkOutcome (Allocated PoolMemory :: Allocated PoolBuffer
               :: map (fun j => Allocated (EntryVIO j)) (seq 0 k)
               ++ map (fun j => Released (EntryVIO j)) (rev (seq 0 k))
               ++ [Released PoolBuffer; Released PoolMemory])
              (Some (ctor k, None)).
Proof.
  intros Hfit Hk Hok Hbad. unfold makeVIOPool.
  cbn [Z.eqb negb VDO_SUCCESS].
  rewrite !bind_emit. unfold zeroedPool, initializeRing. pool_simpl.
  rewrite Nat2Z.id.
  pose proof (constructEntries_fails ctor n 0 k [] 0 0 true) as Hloop.
  cbn [Z.of_nat seq Nat.add] in Hloop.
  rewrite Hloop by (auto; try lia; intros; apply Hok; lia).
  rewrite bind_returned. cbn [fst snd].
  destruct (Z.eqb_spec (ctor k) VDO_SUCCESS) as [Heq | _]; [contradiction |].
  cbn [negb].
  rewrite (freeVIOPool_idle _ (seq 0 k)) by reflexivity.
  rewrite bind_returned. unfold givenBack.
  cbn [events returned buffer ret]. rewrite Nat.sub_0_r, app_nil_r.
  reflexivity.
Qed.

(** A pool is stored only by a construction all of whose steps succeeded,
    and then it is the fresh pool. *)
Lemma makeVIOPool_stored (ap ab : Z) (n : nat) (ctor : Entry -> Z)
    (status : Z) (pool : VIOPool) :
  Z.of_nat n < 2 ^ 64 ->
  returned (makeVIOPool ap ab (Z.of_nat n) ctor) = Some (status, Some pool) ->
  status = VDO_SUCCESS /\ pool = freshPool n.
Proof.
  intros Hfit Hret.
  destruct (Z.eq_dec ap VDO_SUCCESS) as [-> | Hap].
  2:{ rewrite makeVIOPool_pool_allocation_fails in Hret by assumption.
      discriminate. }
  destruct (Z.eq_dec ab VDO_SUCCESS) as [-> | Hab].
  2:{ rewrite makeVIOPool_buffer_allocation_fails in Hret by assumption.
      discriminate. }
  destruct (first_failure ctor n) as [Hall | (k & Hk & Hbefore & Hbad)].
  - rewrite makeVIOPool_succeeds in Hret by assumption.
    cbn in Hret. now inversion Hret.
  - rewrite (makeVIOPool_constructor_fails n k) in Hret by assumption.
    discriminate.
Qed.

(** An acquire that finds an entry on the available list. *)
Lemma acquire_grants (pool : VIOPool) (waiter : Waiter)
    (a b : list Entry) (e : Entry) :
  available pool = Ring (a ++ [e]) -> busy pool = Ring b ->
  ~ In e a -> ~ In e b ->
  0 <= busyCount pool -> busyCount pool + 1 < 2 ^ 64 ->
  acquireVIOFromPool pool waiter
  = mkOutcome [Invoke waiter e]
      (Some (VDO_SUCCESS,
             mkVIOPool (size pool) (Ring a) (waiting pool)
                       (busyCount pool + 1) (Ring (b ++ [e]))
                       (outageCount pool) (buffer pool))).
Proof.
  intros Ha Hb Hna Hnb Hbc0 Hbc. unfold acquireVIOFromPool.
  rewrite Ha. replace (isRingEmpty (Ring (a ++ [e]))) with false
    by (now destruct a).
  pool_simpl. rewrite Ha, chopRingNode_last, bind_ret. cbn [fst snd].
  rewrite wrap_small by lia.
  rewrite (pushRingNode_busy _ e a b); try assumption; reflexivity.
Qed.

(** An acquire that finds the available list empty. *)
Lemma acquire_queues (pool : VIOPool) (waiter : Waiter) :
  isRingEmpty (available pool) = true ->
  acquireVIOFromPool pool waiter
  = mkOutcome []
      (Some (VDO_SUCCESS,
             mkVIOPool (size pool) (available pool)
                       (waiting pool ++ [waiter]) (busyCount pool)
                       (busy pool) (wrap 64 (outageCount pool + 1))
                       (buffer pool))).
Proof.
  intros Hempty. unfold acquireVIOFromPool. rewrite Hempty. reflexivity.
Qed.

(** As many acquires as there are entries in [g], the part of the
    available list that is chopped first. *)
Lemma acquireEach_grants (ws : list Waiter) :
  forall (g s b : list Entry) (sz : Z) (q : WaitQueue) (bc oc : Z)
         (buf : bool),
    length g = length ws -> NoDup (b ++ g ++ s) ->
    0 <= bc -> bc + Z.of_nat (length ws) < 2 ^ 64 ->
    acquireEach (mkVIOPool sz (Ring (rev (g ++ s))) q bc (Ring b) oc buf) ws
    = (map grantedNow (combine ws g),
       Some (mkVIOPool sz (Ring (rev s)) q (bc + Z.of_nat (length ws))
                       (Ring (b ++ g)) oc buf)).
Proof.
  induction ws as [| w ws IH]; intros g s b sz q bc oc buf Hlen Hnd H0 Hfit.
  - destruct g; [| discriminate]. cbn. rewrite app_nil_r, Z.add_0_r.
    reflexivity.
  - destruct g as [| e g]; [discriminate |].
    cbn [length] in Hlen, Hfit. injection Hlen as Hlen.
    assert (Hne : ~ In e (b ++ g ++ s) /\ NoDup (b ++ g ++ s))
      by (split; [eapply NoDup_remove_2 | eapply NoDup_remove_1];
          exact Hnd).
    destruct Hne as [Hne Hnd'].
    cbn [acquireEach app rev].
    rewrite (acquire_grants _ w (rev (g ++ s)) b e);
      try reflexivity; cbn [busyCount]; try lia.
    2:{ rewrite <- in_rev. intros Hin. apply Hne.
        apply in_or_app. now right. }
    2:{ intros Hin. apply Hne. apply in_or_app. now left. }
    cbn [returned events fst snd size waiting outageCount buffer].
    rewrite (IH g s (b ++ [e])); try assumption; try lia.
    2:{ rewrite <- app_assoc. exact Hnd. }
    cbn [fst snd combine map]. rewrite <- app_assoc. cbn [app].
    unfold grantedNow at 2. cbn [fst snd].
    replace (bc + Z.of_nat (length (w :: ws)))
      with (bc + 1 + Z.of_nat (length ws)) by (cbn [length]; lia).
    reflexivity.
Qed.

(** C1: on a pool that [makeVIOPool] has just stored, of capacity [n],
    [n] acquires with no release in between each return [VDO_SUCCESS] having
    run, in the call itself, the continuation of their waiter with an entry;
    the entries granted are pairwise distinct and [busyCount] is [n]
    afterwards. One more acquire runs no continuation, appends its waiter to
    the wait queue and adds exactly 1 to [outageCount]. *)
Theorem acquire_until_exhausted (ap ab : Z) (n : nat) (ctor : Entry -> Z)
    (status : Z) (pool : VIOPool) (ws : list Waiter) (w : Waiter) :
  Z.of_nat n < 2 ^ 64 ->
  returned (makeVIOPool ap ab (Z.of_nat n) ctor) = Some (status, Some pool) ->
  length ws = n ->
  exists (entries : list Entry) (full : VIOPool),
    acquireEach pool ws = (map grantedNow (combine ws entries), Some full)
    /\ length entries = n
    /\ NoDup entries
    /\ busyCount full = Z.of_nat n
    /\ exists after : VIOPool,
         acquireVIOFromPool full w = mkOutcome [] (Some (VDO_SUCCESS, after))
         /\ waiting after = waiting full ++ [w]
         /\ outageCount after = outageCount full + 1.
Proof.
  intros Hfit Hmade Hlen.
  destruct (makeVIOPool_stored _ _ _ _ _ _ Hfit Hmade) as [_ ->].
  exists (rev (seq 0 n)).
  exists (mkVIOPool (Z.of_nat n) (Ring []) [] (Z.of_nat n)
                    (Ring (rev (seq 0 n))) 0 true).
  assert (Hnd : NoDup (rev (seq 0 n))) by (apply NoDup_rev, seq_NoDup).
  pose proof (acquireEach_grants ws (rev (seq 0 n)) [] [] (Z.of_nat n)
                [] 0 0 true) as Hrun.
  rewrite app_nil_r, rev_involutive, Hlen in Hrun.
  cbn [app rev] in Hrun. rewrite Z.add_0_l in Hrun.
  unfold freshPool. rewrite Hrun; try lia; try assumption.
  2:{ rewrite length_rev, length_seq. reflexivity. }
  repeat split; try assumption.
  - rewrite length_rev, length_seq. reflexivity.
  - eexists. rewrite acquire_queues by reflexivity.
    cbn [size available waiting busyCount busy outageCount buffer].
    repeat split.
Qed.

Lemma acquire_until_exhausted_witness :
  exists (entries : list nat) (full : VIOPool),
    acquireEach (freshPool 2) [10; 11]%nat
    = (map grantedNow (combine [10; 11]%nat entries), Some full)
    /\ length entries = 2%nat
    /\ NoDup entries
    /\ busyCount full = 2
    /\ exists after : VIOPool,
         acquireVIOFromPool full 12%nat
         = mkOutcome [] (Some (VDO_SUCCESS, after))
         /\ waiting after = waiting full ++ [12%nat]
         /\ outageCount after = outageCount full + 1.
Proof.
  apply (acquire_until_exhausted VDO_SUCCESS VDO_SUCCESS 2
           (fun _ => VDO_SUCCESS) VDO_SUCCESS (freshPool 2)
           [10; 11]%nat 12%nat).
  - reflexivity.
  - reflexivity.
  - reflexivity.
Defined.

(** A release while a waiter is queued. *)
Lemma release_hands_over (pool : VIOPool) (e : Entry) (w : Waiter)
    (rest : WaitQueue) :
  waiting pool = w :: rest ->
  returnVIOToPool pool e
  = mkOutcome [ClearErrorHandler e; Invoke w e]
      (Some (mkVIOPool (size pool) (available pool) rest (busyCount pool)
                       (busy pool) (outageCount pool) (buffer pool))).
Proof.
  intros Hq. destruct pool as [sz av q bc bs oc buf].
  cbn in Hq. subst q. reflexivity.
Qed.

(** A release while no waiter is queued. *)
Lemma release_returns (pool : VIOPool) (e : Entry) (a : list Entry) :
  waiting pool = [] -> available pool = Ring a ->
  returnVIOToPool pool e
  = mkOutcome [ClearErrorHandler e]
      (Some (mkVIOPool (size pool) (Ring (remove Nat.eq_dec e a ++ [e])) []
                       (wrap 64 (busyCount pool - 1))
                       (unspliceRingNode e (busy pool))
                       (outageCount pool) (buffer pool))).
Proof.
  intros Hq Ha. destruct pool as [sz av q bc bs oc buf].
  cbn in Hq, Ha. subst q av. reflexivity.
Qed.

(** C2: when the wait queue is not empty, a release runs the continuation
    of the earliest waiter with the very entry released, and leaves the
    available list (so its length) and [busyCount] as they were; when the
    wait queue is empty, a release pushes the entry at the end of the
    available list and takes 1 off [busyCount] (as the 64-bit counter
    counts: the difference itself whenever an entry is counted busy). *)
Theorem release_grants_or_returns (pool : VIOPool) (entry : Entry) :
  (forall (w : Waiter) (rest : WaitQueue),
      waiting pool = w :: rest ->
      exists pool' : VIOPool,
        returnVIOToPool pool entry
        = mkOutcome [ClearErrorHandler entry; Invoke w entry] (Some pool')
        /\ waiting pool' = rest
        /\ available pool' = available pool
        /\ ringLength (available pool') = ringLength (available pool)
        /\ busy pool' = busy pool
        /\ busyCount pool' = busyCount pool)
  /\ (forall a : list Entry,
        waiting pool = [] -> available pool = Ring a ->
        exists pool' : VIOPool,
          returnVIOToPool pool entry
          = mkOutcome [ClearErrorHandler entry] (Some pool')
          /\ available pool' = Ring (remove Nat.eq_dec entry a ++ [entry])
          /\ (~ In entry a -> available pool' = Ring (a ++ [entry]))
          /\ busyCount pool' = wrap 64 (busyCount pool - 1)
          /\ (0 < busyCount pool < 2 ^ 64 ->
              busyCount pool' = busyCount pool - 1)).
Proof.
  split.
  - intros w rest Hq. eexists.
    split; [exact (release_hands_over pool entry w rest Hq) |].
    cbn. repeat split.
  - intros a Hq Ha. eexists.
    split; [exact (release_returns pool entry a Hq Ha) |].
    cbn [available busyCount]. repeat split.
    + intros Hna. now rewrite notin_remove.
    + intros Hbc. apply wrap_small. lia.
Qed.

(** The scenario of a pool of capacity 2: A and B are served at once, C is
    queued; when A's entry is released C's continuation receives it, the
    available list stays empty and [busyCount] stays 2. *)
Example capacity_two_scenario :
  let A := 10%nat in
  let B := 11%nat in
  let C := 12%nat in
  acquireEach (freshPool 2) [A; B; C]
  = ([grantedNow (A, 1%nat); grantedNow (B, 0%nat);
      mkOutcome [] (Some VDO_SUCCESS)],
     Some (mkVIOPool 2 (Ring []) [C] 2 (Ring [1; 0]%nat) 1 true))
  /\ returnVIOToPool (mkVIOPool 2 (Ring []) [C] 2 (Ring [1; 0]%nat) 1 true)
                     1%nat
     = mkOutcome [ClearErrorHandler 1%nat; Invoke C 1%nat]
                 (Some (mkVIOPool 2 (Ring []) [] 2 (Ring [1; 0]%nat) 1
                                  true)).
Proof. split; reflexivity. Qed.

Lemma release_grants_or_returns_witness :
  (exists pool' : VIOPool,
      returnVIOToPool
        (mkVIOPool 2 (Ring []) [12; 13]%nat 2 (Ring [1; 0]%nat) 1 true)
        1%nat
      = mkOutcome [ClearErrorHandler 1%nat; Invoke 12%nat 1%nat]
                  (Some pool')
      /\ waiting pool' = [13%nat]
      /\ available pool' = Ring []
      /\ ringLength (available pool') = 0%nat
      /\ busy pool' = Ring [1; 0]%nat
      /\ busyCount pool' = 2)
  /\ (exists pool' : VIOPool,
        returnVIOToPool
          (mkVIOPool 2 (Ring [0%nat]) [] 1 (Ring [1%nat]) 0 true) 1%nat
        = mkOutcome [ClearErrorHandler 1%nat] (Some pool')
        /\ available pool' = Ring [0; 1]%nat
        /\ busyCount pool' = 0).
Proof.
  split.
  - exact (proj1 (release_grants_or_returns
                    (mkVIOPool 2 (Ring []) [12; 13]%nat 2
                               (Ring [1; 0]%nat) 1 true) 1%nat)
                 12%nat [13%nat] eq_refl).
  - destruct (proj2 (release_grants_or_returns
                       (mkVIOPool 2 (Ring [0%nat]) [] 1 (Ring [1%nat])
                                  0 true) 1%nat)
                    [0%nat] eq_refl eq_refl)
      as (pool' & Hrun & _ & Hav & _ & Hcount).
    exists pool'. split; [exact Hrun |]. split.
    + apply Hav. cbn. intros [H | []]. discriminate.
    + apply Hcount. cbn. lia.
Defined.

Lemma NoDup_remove_present (e : Entry) (l : list Entry) :
  NoDup l -> In e l -> Permutation l (e :: remove Nat.eq_dec e l).
Proof.
  induction 1 as [| x l Hx Hnd IH]; intros Hin; [destruct Hin |].
  cbn [remove]. destruct (Nat.eq_dec e x) as [-> | Hne].
  - now rewrite notin_remove.
  - destruct Hin as [Heq | Hin]; [congruence |].
    rewrite perm_swap. constructor. now apply IH.
Qed.

Lemma onRing_In (e : Entry) (chain : list Entry) :
  onRing e (Ring chain) = true <-> In e chain.
Proof.
  cbn. rewrite existsb_exists. split.
  - intros (x & Hin & Heq). apply Nat.eqb_eq in Heq. now subst.
  - intros Hin. exists e. split; [exact Hin | apply Nat.eqb_refl].
Qed.

Lemma invariant_lengths (pool : VIOPool) (a b : list Entry) :
  Permutation (a ++ b) (entriesOf pool) ->
  Z.of_nat (length a) + busyCount pool = size pool ->
  NoDup (a ++ b)
  /\ (length a + length b = Z.to_nat (size pool))%nat
  /\ (a ++ b <> [] -> busyCount pool = Z.of_nat (length b)).
Proof.
  intros Hperm Hsum. unfold entriesOf in Hperm. repeat split.
  - eapply Permutation_NoDup; [symmetry; exact Hperm | apply seq_NoDup].
  - apply Permutation_length in Hperm.
    now rewrite length_app, length_seq in Hperm.
  - intros Hne. apply Permutation_length in Hperm.
    rewrite length_app, length_seq in Hperm.
    assert (length (a ++ b) <> 0)%nat
      by (intros H0; apply Hne; now apply length_zero_iff_nil).
    rewrite length_app in *. lia.
Qed.

Lemma acquire_preserves_invariant (pool : VIOPool) (w : Waiter) :
  poolInvariant pool ->
  exists (status : Z) (pool' : VIOPool),
    returned (acquireVIOFromPool pool w) = Some (status, pool')
    /\ poolInvariant pool' /\ size pool' = size pool.
Proof.
  intros (a & b & Ha & Hb & Hsum & Hperm & Hfit).
  destruct (invariant_lengths pool a b Hperm Hsum) as (Hnd & Hlen & Hbc).
  destruct (rev a) as [| e a'] eqn:Hrev.
  - apply (f_equal (@rev nat)) in Hrev. rewrite rev_involutive in Hrev.
    cbn in Hrev. subst a.
    rewrite acquire_queues by (now rewrite Ha).
    do 2 eexists. split; [reflexivity |]. split; [| reflexivity].
    exists [], b. cbn [size available busy busyCount]. now rewrite Ha.
  - apply (f_equal (@rev nat)) in Hrev. rewrite rev_involutive in Hrev.
    cbn [rev] in Hrev. subst a. rewrite <- app_assoc in Hnd. cbn in Hnd.
    assert (He : ~ In e (rev a' ++ b)) by (eapply NoDup_remove_2; eauto).
    assert (Hcount : busyCount pool = Z.of_nat (length b))
      by (apply Hbc; now destruct (rev a')).
    rewrite length_app in Hlen, Hsum. cbn [length] in Hlen, Hsum.
    rewrite (acquire_grants pool w (rev a') b e); try assumption; try lia.
    2:{ intros Hin. apply He, in_or_app. now left. }
    2:{ intros Hin. apply He, in_or_app. now right. }
    do 2 eexists. split; [reflexivity |]. split; [| reflexivity].
    exists (rev a'), (b ++ [e]).
    unfold entriesOf in *.
    cbn [size available busy busyCount].
    split; [reflexivity |]. split; [reflexivity |].
    split; [lia |]. split; [| exact Hfit].
    rewrite <- Hperm, <- !app_assoc. apply Permutation_app_head.
    apply Permutation_app_comm.
Qed.

Lemma release_preserves_invariant (pool : VIOPool) (e : Entry) :
  poolInvariant pool -> onRing e (busy pool) = true ->
  exists pool' : VIOPool,
    returned (returnVIOToPool pool e) = Some pool'
    /\ poolInvariant pool' /\ size pool' = size pool.
Proof.
  intros (a & b & Ha & Hb & Hsum & Hperm & Hfit) Hbusy.
  rewrite Hb, onRing_In in Hbusy.
  destruct (invariant_lengths pool a b Hperm Hsum) as (Hnd & Hlen & Hbc).
  destruct (waiting pool) as [| w rest] eqn:Hq.
  - assert (Hna : ~ In e a).
    { intros Hin. apply in_split in Hin. destruct Hin as (a1 & a2 & ->).
      rewrite <- app_assoc in Hnd. cbn in Hnd.
      apply NoDup_remove_2 in Hnd. apply Hnd.
      rewrite app_assoc. apply in_or_app. now right. }
    rewrite (release_returns pool e a Hq Ha), Hb.
    rewrite notin_remove by assumption.
    eexists. split; [reflexivity |]. split; [| reflexivity].
    assert (Hb1 : (1 <= length b)%nat)
      by (destruct b; [destruct Hbusy | cbn; lia]).
    assert (Hcount : busyCount pool = Z.of_nat (length b)).
    { apply Hbc. intros Hnil. apply app_eq_nil in Hnil.
      destruct Hnil; subst b; destruct Hbusy. }
    exists (a ++ [e]), (remove Nat.eq_dec e b).
    unfold entriesOf in *.
    cbn [size available busy busyCount unspliceRingNode].
    split; [reflexivity |]. split; [reflexivity |].
    split; [| split; [| exact Hfit]].
    + rewrite wrap_small by lia. rewrite length_app. cbn [length]. lia.
    + rewrite <- Hperm.
      rewrite <- app_assoc. apply Permutation_app_head. cbn [app].
      symmetry. apply NoDup_remove_present; [| exact Hbusy].
      now apply NoDup_app_remove_l in Hnd.
  - rewrite (release_hands_over pool e w rest Hq).
    eexists. split; [reflexivity |]. split; [| reflexivity].
    exists a, b. unfold entriesOf in *.
    cbn [size available busy busyCount].
    split; [exact Ha |]. split; [exact Hb |]. split; [exact Hsum |].
    split; [exact Hperm | exact Hfit].
Qed.

(** A release while a waiter is queued touches the wait queue only. *)
Lemma release_to_waiter_preserves_invariant (pool : VIOPool) (e : Entry) :
  poolInvariant pool -> waiting pool <> [] ->
  exists pool' : VIOPool,
    returned (returnVIOToPool pool e) = Some pool'
    /\ poolInvariant pool' /\ size pool' = size pool.
Proof.
  intros (a & b & Ha & Hb & Hsum & Hperm & Hfit) Hwait.
  destruct (waiting pool) as [| w rest] eqn:Hq; [now contradiction Hwait |].
  rewrite (release_hands_over pool e w rest Hq).
  eexists. split; [reflexivity |]. split; [| reflexivity].
  exists a, b. unfold entriesOf in *.
  cbn [size available busy busyCount].
  split; [exact Ha |]. split; [exact Hb |]. split; [exact Hsum |].
  split; [exact Hperm | exact Hfit].
Qed.

(** C10, as amended: the pool [makeVIOPool] stores satisfies the invariant
    (the length of the available list plus [busyCount] is [size], and every
    entry is once on the available list or once on the busy list); every
    acquire keeps it, and so does every release made while a waiter is
    queued and every release of an entry that is on loan; an acquire that
    finds no entry available and queues its waiter changes neither the
    available list, nor the busy list, nor [busyCount]. *)
Theorem pool_invariant_preserved :
  (forall (ap ab : Z) (n : nat) (ctor : Entry -> Z) (status : Z)
          (pool : VIOPool),
      Z.of_nat n < 2 ^ 64 ->
      returned (makeVIOPool ap ab (Z.of_nat n) ctor)
      = Some (status, Some pool) ->
      poolInvariant pool /\ size pool = Z.of_nat n)
  /\ (forall (pool : VIOPool) (w : Waiter),
        poolInvariant pool ->
        exists (status : Z) (pool' : VIOPool),
          returned (acquireVIOFromPool pool w) = Some (status, pool')
          /\ poolInvariant pool' /\ size pool' = size pool)
  /\ (forall (pool : VIOPool) (e : Entry),
        poolInvariant pool ->
        waiting pool <> [] \/ onRing e (busy pool) = true ->
        exists pool' : VIOPool,
          returned (returnVIOToPool pool e) = Some pool'
          /\ poolInvariant pool' /\ size pool' = size pool)
  /\ (forall (pool : VIOPool) (w : Waiter),
        isRingEmpty (available pool) = true ->
        exists (status : Z) (pool' : VIOPool),
          acquireVIOFromPool pool w = mkOutcome [] (Some (status, pool'))
          /\ available pool' = available pool
          /\ busy pool' = busy pool
          /\ busyCount pool' = busyCount pool).
Proof.
  split; [| split; [| split]].
  - intros ap ab n ctor status pool Hfit Hmade.
    destruct (makeVIOPool_stored _ _ _ _ _ _ Hfit Hmade) as [_ ->].
    split; [| reflexivity].
    exists (seq 0 n), []. unfold entriesOf, freshPool.
    cbn [size available busy busyCount].
    rewrite length_seq, app_nil_r, Nat2Z.id.
    repeat split; try lia. apply Permutation_refl.
  - exact acquire_preserves_invariant.
  - intros pool e Hinv [Hwait | Hloan].
    + now apply release_to_waiter_preserves_invariant.
    + now apply release_preserves_invariant.
  - intros pool w Hempty. do 2 eexists.
    split; [now apply acquire_queues |]. repeat split.
Qed.

Lemma pool_invariant_preserved_witness :
  (poolInvariant (freshPool 2) /\ size (freshPool 2) = 2)
  /\ (exists (status : Z) (pool' : VIOPool),
        returned (acquireVIOFromPool (freshPool 2) 10%nat)
        = Some (status, pool')
        /\ poolInvariant pool' /\ size pool' = 2)
  /\ (exists pool' : VIOPool,
        returned (returnVIOToPool
                    (mkVIOPool 2 (Ring [0%nat]) [] 1 (Ring [1%nat]) 0 true)
                    1%nat)
        = Some pool'
        /\ poolInvariant pool' /\ size pool' = 2)
  /\ (exists pool' : VIOPool,
        returned (returnVIOToPool
                    (mkVIOPool 2 (Ring []) [12%nat] 2 (Ring [1; 0]%nat)
                               1 true)
                    0%nat)
        = Some pool'
        /\ poolInvariant pool' /\ size pool' = 2)
  /\ (exists (status : Z) (pool' : VIOPool),
        acquireVIOFromPool
          (mkVIOPool 2 (Ring []) [] 2 (Ring [1; 0]%nat) 0 true) 12%nat
        = mkOutcome [] (Some (status, pool'))
        /\ available pool' = Ring []
        /\ busy pool' = Ring [1; 0]%nat
        /\ busyCount pool' = 2).
Proof.
  destruct pool_invariant_preserved
    as (Hmade & Hacquire & Hrelease & Hqueue).
  assert (Hfresh : poolInvariant (freshPool 2) /\ size (freshPool 2) = 2).
  { apply (Hmade VDO_SUCCESS VDO_SUCCESS 2%nat (fun _ => VDO_SUCCESS)
                 VDO_SUCCESS (freshPool 2)); reflexivity. }
  split; [exact Hfresh |]. split; [| split; [| split]].
  - apply (Hacquire (freshPool 2) 10%nat). exact (proj1 Hfresh).
  - apply (Hrelease (mkVIOPool 2 (Ring [0%nat]) [] 1 (Ring [1%nat]) 0 true)
                    1%nat); [| right; reflexivity].
    exists [0%nat], [1%nat]. cbn. repeat split; try lia.
    apply Permutation_refl.
  - apply (Hrelease (mkVIOPool 2 (Ring []) [12%nat] 2 (Ring [1; 0]%nat)
                               1 true) 0%nat);
      [| left; cbn; discriminate].
    exists [], [1; 0]%nat. cbn. repeat split; try lia.
    apply perm_swap.
  - apply (Hqueue (mkVIOPool 2 (Ring []) [] 2 (Ring [1; 0]%nat) 0 true)
                  12%nat). reflexivity.
Defined.

(** C10, as first stated, fails: it let every release keep the invariant.
    On the pool of two entries that [makeVIOPool] has just stored, which
    satisfies the invariant, nobody waits and nothing is on loan; releasing
    entry 0 all the same returns a pool whose available list still holds two
    entries while [busyCount] has wrapped from 0 to 2^64 - 1, and the
    invariant does not hold of it. *)
Lemma pool_invariant_release_counterexample :
  returned (makeVIOPool VDO_SUCCESS VDO_SUCCESS 2 (fun _ => VDO_SUCCESS))
  = Some (VDO_SUCCESS, Some (freshPool 2))
  /\ poolInvariant (freshPool 2)
  /\ exists pool' : VIOPool,
       returned (returnVIOToPool (freshPool 2) 0%nat) = Some pool'
       /\ ringLength (available pool') = 2%nat
       /\ busyCount pool' = 2 ^ 64 - 1
       /\ ~ poolInvariant pool'.
Proof.
  split; [reflexivity |]. split.
  - exists [0; 1]%nat, []. cbn. repeat split; try lia.
    apply Permutation_refl.
  - eexists. split; [reflexivity |].
    split; [reflexivity |]. split; [reflexivity |].
    intros (a & b & Ha & _ & Hsum & _).
    cbn [size available busyCount] in Ha, Hsum.
    injection Ha as <-. cbn in Hsum. lia.
Qed.

Lemma failedAssertions_released (l : list Entry) :
  failedAssertions (map (fun e => Released (EntryVIO e)) l) = [].
Proof. induction l as [| e l IH]; [reflexivity | exact IH]. Qed.

Lemma failedAssertions_givenBack (pool : VIOPool) :
  failedAssertions (givenBack pool) = [].
Proof. unfold givenBack. now destruct (buffer pool). Qed.

Lemma failed_first {B : Type} (a : PoolAssertion) (k : unit -> Outcome B) :
  failedAssertions (events (bind (emit (AssertionFailed a)) k)) <> [].
Proof. rewrite bind_emit. cbn. discriminate. Qed.

(** C6: teardown of a pool with [busyCount > 0] or with a waiter queued
    reports a failed assertion; teardown of a pool with [busyCount = 0], no
    waiter and every entry back on the available list reports none, and
    returns with the pointer cleared. *)
Theorem teardown_assertions (pool : VIOPool) :
  (0 < busyCount pool \/ waiting pool <> [] ->
   failedAssertions (events (freeVIOPool (Some pool))) <> [])
  /\ (busyCount pool = 0 -> waiting pool = [] -> allAvailable pool ->
      failedAssertions (events (freeVIOPool (Some pool))) = []
      /\ returned (freeVIOPool (Some pool)) = Some None).
Proof.
  split.
  - intros Hbad. unfold freeVIOPool.
    destruct (waiting pool) as [| w q] eqn:Hq.
    + destruct Hbad as [Hbusy | Hq']; [| now contradiction Hq'].
      cbn [hasWaiters negb]. unfold ASSERT_LOG_ONLY at 1.
      rewrite bind_ret.
      destruct (Z.eqb_spec (busyCount pool) 0) as [H0 | _]; [lia |].
      unfold ASSERT_LOG_ONLY at 1. apply failed_first.
    + cbn [hasWaiters negb]. unfold ASSERT_LOG_ONLY at 1.
      apply failed_first.
  - intros Hbc Hq (a & Ha & Hb & _).
    rewrite (freeVIOPool_idle pool a Hq Hbc Ha Hb). cbn [events returned].
    split; [| reflexivity].
    unfold failedAssertions. rewrite flat_map_app.
    fold (failedAssertions (givenBack pool)).
    fold (failedAssertions
            (map (fun e => Released (EntryVIO e)) (rev a))).
    now rewrite failedAssertions_released, failedAssertions_givenBack.
Qed.

Lemma teardown_assertions_witness :
  failedAssertions
    (events (freeVIOPool
               (Some (mkVIOPool 2 (Ring [0%nat]) [] 1 (Ring [1%nat])
                                0 true)))) <> []
  /\ failedAssertions
       (events (freeVIOPool
                  (Some (mkVIOPool 2 (Ring []) [12%nat] 2
                                   (Ring [1; 0]%nat) 1 true)))) <> []
  /\ failedAssertions (events (freeVIOPool (Some (freshPool 2)))) = []
  /\ returned (freeVIOPool (Some (freshPool 2))) = Some None.
Proof.
  split; [| split].
  - apply (proj1 (teardown_assertions
                    (mkVIOPool 2 (Ring [0%nat]) [] 1 (Ring [1%nat])
                               0 true))).
    left. cbn. lia.
  - apply (proj1 (teardown_assertions
                    (mkVIOPool 2 (Ring []) [12%nat] 2 (Ring [1; 0]%nat)
                               1 true))).
    right. cbn. discriminate.
  - apply (proj2 (teardown_assertions (freshPool 2)));
      [reflexivity | reflexivity |].
    exists [0; 1]%nat. repeat split. apply Permutation_refl.
Defined.

(** C7, at the input where it fails: the pool is allocated and the
    allocation of the buffer fails with error 12. [makeVIOPool] tears the
    pool down before its two rings are initialised: teardown reports the
    busy ring as not empty, follows the [NULL] link of the available ring
    and does not return, with the pool's memory still allocated; the error
    is never returned. *)
Theorem makeVIOPool_buffer_failure :
  makeVIOPool VDO_SUCCESS 12 1 (fun _ => VDO_SUCCESS)
  = mkOutcome [Allocated PoolMemory; AssertionFailed NoBusyEntriesWhenFreed]
              None
  /\ outstanding []
       (events (makeVIOPool VDO_SUCCESS 12 1 (fun _ => VDO_SUCCESS)))
     = [PoolMemory].
Proof. split; reflexivity. Qed.

Lemma outstanding_allocated (l : list Resource) :
  forall (held : list Resource) (rest : list Event),
    outstanding held (map Allocated l ++ rest)
    = outstanding (rev l ++ held) rest.
Proof.
  induction l as [| r l IH]; intros held rest; [reflexivity |].
  cbn [map app outstanding rev]. rewrite IH, <- app_assoc. reflexivity.
Qed.

Lemma outstanding_released (l : list Resource) :
  NoDup l -> outstanding l (map Released l) = [].
Proof.
  induction 1 as [| r l Hnotin Hnd IH]; [reflexivity |].
  cbn [map outstanding remove].
  destruct (resource_eq_dec r r) as [_ | Hne]; [| contradiction].
  now rewrite notin_remove.
Qed.

Lemma NoDup_held (k : nat) :
  NoDup (map EntryVIO (rev (seq 0 k)) ++ [PoolBuffer; PoolMemory]).
Proof.
  apply NoDup_app.
  - apply NoDup_map_NoDup_ForallPairs; [| apply NoDup_rev, seq_NoDup].
    intros x y _ _ Heq. now injection Heq.
  - repeat constructor; cbn; intuition discriminate.
  - intros r Hin. apply in_map_iff in Hin.
    destruct Hin as (j & <- & _). cbn. intuition discriminate.
Qed.

(** X15: when a constructor fails, construction gives back all it
    allocated, reports no failed assertion and returns the constructor's
    error. *)
Lemma makeVIOPool_constructor_failure_unwinds (n k : nat)
    (ctor : Entry -> Z) :
  Z.of_nat n < 2 ^ 64 -> (k < n)%nat ->
  (forall j : nat, (j < k)%nat -> ctor j = VDO_SUCCESS) ->
  ctor k <> VDO_SUCCESS ->
  let made := makeVIOPool VDO_SUCCESS VDO_SUCCESS (Z.of_nat n) ctor in
  returned made = Some (ctor k, None)
  /\ failedAssertions (events made) = []
  /\ outstanding [] (events made) = [].
Proof.
  intros Hfit Hk Hok Hbad made. subst made.
  rewrite (makeVIOPool_constructor_fails n k) by assumption.
  cbn [events returned]. split; [reflexivity |]. split.
  - cbn [failedAssertions flat_map app].
    rewrite !flat_map_app.
    fold (failedAssertions
            (map (fun e => Released (EntryVIO e)) (rev (seq 0 k)))).
    rewrite failedAssertions_released.
    cbn [flat_map app]. rewrite app_nil_r.
    induction (seq 0 k) as [| x l IH]; [reflexivity | exact IH].
  - cbn [outstanding].
    rewrite <- (map_map EntryVIO Allocated), outstanding_allocated.
    rewrite <- (map_map EntryVIO Released).
    change [Released PoolBuffer; Released PoolMemory]
      with (map Released [PoolBuffer; PoolMemory]).
    rewrite <- map_app, <- map_rev.
    apply outstanding_released, NoDup_held.
Qed.

End VIOPoolFacts.

(** ** The slab scrubber *)

Module SlabScrubberFacts.
Import SlabScrubber.

Lemma in_unqueue (s s' : Slab) (queue : list Slab) :
  In s queue -> s <> s' -> In s (unqueue s' queue).
Proof. intros Hin Hne. unfold unqueue. now apply in_in_remove. Qed.

Lemma enqueue_keeps (scrubber : SlabScrubber) (s s' : Slab)
    (priority : Priority) :
  queued s scrubber ->
  queued s (enqueueSlab scrubber s' priority).
Proof.
  intros Hq. unfold queued, enqueueSlab.
  destruct (Nat.eq_dec s s') as [-> | Hne].
  - destruct priority; cbn [slabs highPrioritySlabs];
      [right | left]; apply in_or_app; right; now left.
  - destruct Hq as [Hn | Hh]; destruct priority;
      cbn [slabs highPrioritySlabs];
      solve [ left; try (apply in_or_app; left); now apply in_unqueue
            | right; try (apply in_or_app; left); now apply in_unqueue ].
Qed.

Lemma scrubStep_keeps (scrubber : SlabScrubber) (s : Slab) :
  queued s scrubber ->
  queued s (fst (scrubStep scrubber))
  \/ started s (snd (scrubStep scrubber)).
Proof.
  unfold queued, started, scrubStep. intros Hq.
  destruct scrubber as [high normal state only current].
  cbn [slabs highPrioritySlabs adminState highPriorityOnly] in *.
  destruct state; cbn [fst snd slabs highPrioritySlabs]; try (now left).
  destruct high as [| h high].
  - destruct only; cbn [fst snd slabs highPrioritySlabs]; [now left |].
    destruct normal as [| m normal]; cbn [fst snd slabs highPrioritySlabs];
      [now left |].
    destruct Hq as [[-> | Hin] | []].
    + right. exists NormalPriority. now left.
    + left. now left.
  - cbn [fst snd slabs highPrioritySlabs].
    destruct Hq as [Hin | [-> | Hin]].
    + left. now left.
    + right. exists HighPriority. now left.
    + left. now right.
Qed.

Lemma step_keeps (scrubber : SlabScrubber) (op : Operation) (s : Slab) :
  isQuiesce op = false -> queued s scrubber ->
  queued s (fst (step scrubber op)) \/ started s (snd (step scrubber op)).
Proof.
  intros Hop Hq. destruct op; cbn [step fst snd]; try discriminate.
  - left. now apply enqueue_keeps.
  - now apply scrubStep_keeps.
  - left. exact Hq.
  - left. unfold suspendScrubbing. now destruct (adminState scrubber).
  - left. unfold resumeScrubbing. now destruct (adminState scrubber).
Qed.

Lemma run_keeps (ops : list Operation) :
  forall (scrubber : SlabScrubber) (s : Slab),
    forallb (fun op => negb (isQuiesce op)) ops = true ->
    queued s scrubber ->
    queued s (fst (run scrubber ops)) \/ started s (snd (run scrubber ops)).
Proof.
  induction ops as [| op ops IH]; intros scrubber s Hops Hq.
  - left. exact Hq.
  - cbn [forallb] in Hops. apply andb_true_iff in Hops.
    destruct Hops as [Hop Hops]. apply negb_true_iff in Hop.
    cbn [run].
    destruct (step scrubber op) as [scrubber' evs] eqn:Hstep.
    destruct (run scrubber' ops) as [final evs'] eqn:Hrun.
    cbn [fst snd].
    destruct (step_keeps scrubber op s Hop Hq) as [Hq' | (p & Hin)];
      rewrite Hstep in *; cbn [fst snd] in *.
    + destruct (IH scrubber' s Hops Hq') as [Hfinal | (p & Hin)];
        rewrite Hrun in *; cbn [fst snd] in *.
      * now left.
      * right. exists p. apply in_or_app. now right.
    + right. exists p. apply in_or_app. now left.
Qed.

(** A scrub step that starts a slab of the normal queue finds the
    high-priority queue empty. *)
Lemma normal_start_needs_no_high (scrubber : SlabScrubber) (s : Slab) :
  In (Started NormalPriority s) (snd (scrubStep scrubber)) ->
  highPrioritySlabs scrubber = []
  /\ highPriorityOnly scrubber = false
  /\ exists rest : list Slab, slabs scrubber = s :: rest.
Proof.
  unfold scrubStep.
  destruct scrubber as [high normal state only current].
  cbn [slabs highPrioritySlabs adminState highPriorityOnly].
  destruct state; cbn [snd]; try (intros []).
  destruct high as [| h high].
  - destruct only; cbn [snd]; [intros [] |].
    destruct normal as [| m normal]; cbn [snd]; [intros [] |].
    intros [Heq | []]. injection Heq as ->. repeat split. now exists normal.
  - cbn [snd]. intros [Heq | []]. discriminate.
Qed.

Lemma step_highPriorityFirst (scrubber : SlabScrubber) (op : Operation) :
  highPriorityFirst (scrubber, snd (step scrubber op)).
Proof.
  intros s Hin. cbn [fst snd] in *.
  destruct op; cbn [step snd] in Hin; try (now destruct Hin).
  - now apply normal_start_needs_no_high in Hin.
  - unfold quiesceScrubbing in Hin.
    destruct (adminState scrubber); cbn [snd] in Hin;
      try (now destruct Hin);
      apply in_map_iff in Hin; destruct Hin as (x & Heq & _);
      discriminate.
Qed.

(** C8: in every interleaving [ops] of enqueues, scrub steps and the other
    requests, run from every state, a step that starts a slab of the normal
    queue finds the high-priority queue empty; and as long as [ops] holds
    no quiesce, a slab of the normal queue is still queued afterwards or
    its scrubbing has been started: it is deferred, not discarded. *)
Theorem high_priority_first (scrubber : SlabScrubber)
    (ops : list Operation) :
  Forall highPriorityFirst (history scrubber ops)
  /\ (forallb (fun op => negb (isQuiesce op)) ops = true ->
      forall s : Slab,
        In s (slabs scrubber) ->
        queued s (fst (run scrubber ops))
        \/ started s (snd (run scrubber ops))).
Proof.
  split.
  - revert scrubber.
    induction ops as [| op ops IH]; intros scrubber; cbn [history].
    + constructor.
    + constructor; [apply step_highPriorityFirst | apply IH].
  - intros Hops s Hin. apply run_keeps; [exact Hops | now left].
Qed.

Lemma high_priority_first_witness :
  Forall highPriorityFirst
    (history (mkSlabScrubber [] [] NORMAL false None)
             [Enqueue 1 NormalPriority; Enqueue 2 HighPriority;
              ScrubStep; ScrubStep])
  /\ (queued 1 (fst (run (mkSlabScrubber [] [1%nat] NORMAL false None)
                        [Enqueue 2 HighPriority; ScrubStep; Suspend]))
      \/ started 1 (snd (run (mkSlabScrubber [] [1%nat] NORMAL false None)
                            [Enqueue 2 HighPriority; ScrubStep;
                             Suspend]))).
Proof.
  split.
  - exact (proj1 (high_priority_first
                    (mkSlabScrubber [] [] NORMAL false None)
                    [Enqueue 1 NormalPriority; Enqueue 2 HighPriority;
                     ScrubStep; ScrubStep])).
  - apply (proj2 (high_priority_first
                    (mkSlabScrubber [] [1%nat] NORMAL false None)
                    [Enqueue 2 HighPriority; ScrubStep; Suspend])
                 eq_refl 1%nat).
    cbn. now left.
Defined.

(** The order of the witness, run: slab 2, queued second but at high
    priority, is started before slab 1. *)
Example high_priority_overtakes :
  snd (run (mkSlabScrubber [] [] NORMAL false None)
           [Enqueue 1 NormalPriority; Enqueue 2 HighPriority;
            ScrubStep; ScrubStep])
  = [Started HighPriority 2%nat; Started NormalPriority 1%nat].
Proof. reflexivity. Qed.

End SlabScrubberFacts.

(** ** Journal points: order, encoding and advancing *)

Module JournalPointOrder.
Import JournalPoint JournalPointFacts.

(** The packed word of a point whose sequence number fits in 48 bits. *)
Lemma encodedPoint_small (p : JournalPoint) :
  inRange p -> sequenceNumber p < 2 ^ 48 ->
  encodedPoint (packJournalPoint p)
  = sequenceNumber p * 2 ^ 16 + entryCount p.
Proof.
  intros Hp Hs. rewrite encodedPoint_pack by exact Hp.
  destruct Hp as [Hseq _]. now rewrite Z.mod_small by lia.
Qed.

(** X1: every 64-bit packed word unpacks to a point in range whose sequence
    number is below 2^48, and packing that point gives the word back. *)
Theorem pack_unpack (packed : PackedJournalPoint) :
  0 <= encodedPoint packed < 2 ^ 64 ->
  packJournalPoint (unpackJournalPoint packed) = packed
  /\ inRange (unpackJournalPoint packed)
  /\ sequenceNumber (unpackJournalPoint packed) < 2 ^ 48.
Proof.
  destruct packed as [e]. cbn [encodedPoint]. intros He.
  assert (Hhigh : 0 <= e / 2 ^ 16 < 2 ^ 48).
  { split; [apply Z.div_pos; lia |].
    apply Z.div_lt_upper_bound; lia. }
  assert (Hlow : 0 <= e mod 2 ^ 16 < 2 ^ 16)
    by (apply Z.mod_pos_bound; lia).
  assert (Hseq : sequenceNumber (unpackJournalPoint (mkPackedJournalPoint e))
                 = e / 2 ^ 16).
  { cbn [unpackJournalPoint sequenceNumber encodedPoint].
    now rewrite Z.shiftr_div_pow2 by lia. }
  assert (Hcount : entryCount (unpackJournalPoint (mkPackedJournalPoint e))
                   = e mod 2 ^ 16).
  { cbn [unpackJournalPoint entryCount encodedPoint].
    change 65535 with (Z.ones 16). rewrite Z.land_ones by lia.
    now apply wrap_small. }
  assert (Hin : inRange (unpackJournalPoint (mkPackedJournalPoint e))).
  { unfold inRange. rewrite Hseq, Hcount. lia. }
  split; [| split; [exact Hin | rewrite Hseq; lia]].
  pose proof (encodedPoint_small _ Hin) as Henc.
  rewrite Hseq, Hcount in Henc. specialize (Henc (proj2 Hhigh)).
  destruct (packJournalPoint _) as [e']. cbn [encodedPoint] in Henc.
  subst e'. f_equal. pose proof (Z.div_mod e (2 ^ 16)). lia.
Qed.

Lemma pack_unpack_witness :
  packJournalPoint (unpackJournalPoint (mkPackedJournalPoint (2 ^ 64 - 1)))
  = mkPackedJournalPoint (2 ^ 64 - 1)
  /\ inRange (unpackJournalPoint (mkPackedJournalPoint (2 ^ 64 - 1)))
  /\ sequenceNumber (unpackJournalPoint (mkPackedJournalPoint (2 ^ 64 - 1)))
     < 2 ^ 48.
Proof.
  apply (pack_unpack (mkPackedJournalPoint (2 ^ 64 - 1))). cbn. lia.
Defined.

(** X2: for points whose sequence numbers are below 2^48, one point is
    before another exactly when its packed word is the smaller number, and
    two points are equivalent exactly when their packed words are equal. *)
Theorem pack_monotone (a b : JournalPoint) :
  inRange a -> inRange b ->
  sequenceNumber a < 2 ^ 48 -> sequenceNumber b < 2 ^ 48 ->
  (beforeJournalPoint a b = true
   <-> encodedPoint (packJournalPoint a) < encodedPoint (packJournalPoint b))
  /\ (areEquivalentJournalPoints a b = true
      <-> packJournalPoint a = packJournalPoint b).
Proof.
  intros Ha Hb Hsa Hsb.
  pose proof (encodedPoint_small a Ha Hsa) as Hea.
  pose proof (encodedPoint_small b Hb Hsb) as Heb.
  destruct Ha as [Ha1 Ha2], Hb as [Hb1 Hb2].
  rewrite beforeJournalPoint_spec, areEquivalentJournalPoints_spec.
  rewrite Hea, Heb. split; [lia |].
  split.
  - intros [Hs Hc].
    destruct (packJournalPoint a) as [ea], (packJournalPoint b) as [eb].
    cbn [encodedPoint] in *. f_equal. lia.
  - intros Heq. rewrite Heq in Hea. lia.
Qed.

Lemma pack_monotone_witness :
  (beforeJournalPoint (mkJournalPoint 3 65535) (mkJournalPoint 4 0) = true
   <-> encodedPoint (packJournalPoint (mkJournalPoint 3 65535))
       < encodedPoint (packJournalPoint (mkJournalPoint 4 0)))
  /\ (areEquivalentJournalPoints (mkJournalPoint 3 65535)
                                 (mkJournalPoint 4 0) = true
      <-> packJournalPoint (mkJournalPoint 3 65535)
          = packJournalPoint (mkJournalPoint 4 0)).
Proof.
  apply (pack_monotone (mkJournalPoint 3 65535) (mkJournalPoint 4 0));
    unfold inRange; cbn; lia.
Defined.

(** One advance of a point whose entry count is below the block size. *)
Lemma advance_index (p : JournalPoint) (e : Z) :
  inRange p -> isEntryCount e -> entryCount p < e ->
  sequenceNumber p + 1 < 2 ^ 64 ->
  let p' := advanceJournalPoint p e in
  inRange p' /\ entryCount p' < e
  /\ sequenceNumber p' * e + entryCount p'
     = sequenceNumber p * e + entryCount p + 1
  /\ sequenceNumber p <= sequenceNumber p' <= sequenceNumber p + 1.
Proof.
  intros [Hs Hc] He Hlt Hfit p'. subst p'.
  unfold isEntryCount in He. unfold advanceJournalPoint, inRange.
  cbn [sequenceNumber entryCount].
  rewrite wrap_small by lia.
  destruct (Z.eqb_spec (entryCount p + 1) e) as [Heq | Hne];
    cbn [sequenceNumber entryCount].
  - rewrite wrap_small by lia. repeat split; try lia.
  - repeat split; try lia.
Qed.

(** Any number of advances, counted in entries. *)
Lemma advanceTimes_index (e : Z) (k : nat) :
  forall p : JournalPoint,
    inRange p -> isEntryCount e -> entryCount p < e ->
    sequenceNumber p + Z.of_nat k < 2 ^ 64 ->
    let p' := advanceTimes k e p in
    inRange p' /\ entryCount p' < e
    /\ sequenceNumber p' * e + entryCount p'
       = sequenceNumber p * e + entryCount p + Z.of_nat k
    /\ sequenceNumber p <= sequenceNumber p' <= sequenceNumber p + Z.of_nat k.
Proof.
  induction k as [| k IH]; intros p Hp He Hlt Hfit.
  - cbn. repeat split; try lia; apply Hp.
  - cbv zeta. rewrite advanceTimes_S.
    destruct (IH p Hp He Hlt ltac:(lia)) as (Hin & Hc & Hidx & Hseq).
    destruct (advance_index (advanceTimes k e p) e Hin He Hc ltac:(lia))
      as (Hin' & Hc' & Hidx' & Hseq').
    repeat split; try assumption; try lia; apply Hin'.
Qed.

(** X3: from a point whose entry count is below the block size, [k]
    advances keep the entry count below the block size and add exactly [k]
    to [sequenceNumber * entriesPerBlock + entryCount], as long as the
    sequence number cannot overflow. *)
Theorem advance_counts_entries (p : JournalPoint) (entriesPerBlock : Z)
    (k : nat) :
  inRange p -> isEntryCount entriesPerBlock ->
  entryCount p < entriesPerBlock ->
  sequenceNumber p + Z.of_nat k < 2 ^ 64 ->
  let p' := advanceTimes k entriesPerBlock p in
  entryCount p' < entriesPerBlock
  /\ sequenceNumber p' * entriesPerBlock + entryCount p'
     = sequenceNumber p * entriesPerBlock + entryCount p + Z.of_nat k.
Proof.
  intros Hp He Hlt Hfit.
  destruct (advanceTimes_index entriesPerBlock k p Hp He Hlt Hfit)
    as (_ & Hc & Hidx & _).
  split; assumption.
Qed.

Lemma advance_counts_entries_witness :
  let p' := advanceTimes 7 3 (mkJournalPoint 9 2) in
  entryCount p' < 3
  /\ sequenceNumber p' * 3 + entryCount p' = 9 * 3 + 2 + 7.
Proof.
  apply (advance_counts_entries (mkJournalPoint 9 2) 3 7);
    unfold inRange, isEntryCount; cbn; lia.
Defined.

(** X4: from a point whose entry count is below the block size, one or
    more advances give a point that the starting point is before, and that
    is not before the starting point. *)
Theorem advance_moves_forward (p : JournalPoint) (entriesPerBlock : Z)
    (k : nat) :
  inRange p -> isEntryCount entriesPerBlock ->
  entryCount p < entriesPerBlock ->
  sequenceNumber p + Z.of_nat k < 2 ^ 64 ->
  (0 < k)%nat ->
  beforeJournalPoint p (advanceTimes k entriesPerBlock p) = true
  /\ beforeJournalPoint (advanceTimes k entriesPerBlock p) p = false.
Proof.
  intros Hp He Hlt Hfit Hk.
  destruct (advanceTimes_index entriesPerBlock k p Hp He Hlt Hfit)
    as (Hin & Hc & Hidx & Hseq).
  destruct Hp as [Hs Hcp], Hin as [Hs' Hcp'].
  unfold isEntryCount in He.
  assert (Hfwd :
    sequenceNumber p < sequenceNumber (advanceTimes k entriesPerBlock p)
    \/ (sequenceNumber p
        = sequenceNumber (advanceTimes k entriesPerBlock p)
        /\ entryCount p
           < entryCount (advanceTimes k entriesPerBlock p))).
  { destruct (Z.eq_dec (sequenceNumber p)
                (sequenceNumber (advanceTimes k entriesPerBlock p)))
      as [Heq | Hne]; [right | left; lia].
    split; [exact Heq |]. rewrite <- Heq in Hidx. lia. }
  split.
  - now apply beforeJournalPoint_spec.
  - apply not_true_iff_false. rewrite beforeJournalPoint_spec. lia.
Qed.

Lemma advance_moves_forward_witness :
  beforeJournalPoint (mkJournalPoint 9 2)
                     (advanceTimes 1 3 (mkJournalPoint 9 2)) = true
  /\ beforeJournalPoint (advanceTimes 1 3 (mkJournalPoint 9 2))
                        (mkJournalPoint 9 2) = false.
Proof.
  apply (advance_moves_forward (mkJournalPoint 9 2) 3 1);
    unfold inRange, isEntryCount; cbn; lia.
Defined.


(** With block size 0 the count runs through all 16-bit values. *)
Lemma advanceTimes_zero_below (p : JournalPoint) (k : nat) :
  inRange p -> entryCount p = 0 -> Z.of_nat k < 2 ^ 16 ->
  advanceTimes k 0 p = mkJournalPoint (sequenceNumber p) (Z.of_nat k).
Proof.
  intros Hp H0. induction k as [| k IH]; intros Hk.
  - destruct p as [s c]. cbn in *. now subst c.
  - rewrite advanceTimes_S, IH by lia.
    unfold advanceJournalPoint. cbn [sequenceNumber entryCount].
    rewrite wrap_small by lia.
    destruct (Z.eqb_spec (Z.of_nat k + 1) 0) as [Heq | Hne]; [lia |].
    f_equal. lia.
Qed.

(** X5: with [entriesPerBlock = 0] the 16-bit entry count runs through all
    its values: from entry count 0, fewer than 2^16 advances only count,
    and the 2^16th wraps the count to 0 and carries into the sequence
    number. *)
Theorem advance_block_size_zero (p : JournalPoint) :
  inRange p -> entryCount p = 0 ->
  advanceTimes (Z.to_nat (2 ^ 16)) 0 p
  = mkJournalPoint (wrap 64 (sequenceNumber p + 1)) 0
  /\ (forall k : nat, Z.of_nat k < 2 ^ 16 ->
      advanceTimes k 0 p = mkJournalPoint (sequenceNumber p) (Z.of_nat k)).
Proof.
  intros Hp H0. split.
  - replace (Z.to_nat (2 ^ 16)) with (S (Z.to_nat (2 ^ 16 - 1))) by lia.
    rewrite advanceTimes_S.
    rewrite advanceTimes_zero_below by (auto; lia).
    unfold advanceJournalPoint. cbn [sequenceNumber entryCount].
    rewrite Z2Nat.id by lia.
    replace (2 ^ 16 - 1 + 1) with (2 ^ 16) by lia.
    reflexivity.
  - intros k Hk. apply advanceTimes_zero_below; auto.
Qed.

Lemma advance_block_size_zero_witness :
  advanceTimes (Z.to_nat (2 ^ 16)) 0 (mkJournalPoint 9 0)
  = mkJournalPoint 10 0
  /\ advanceTimes 3 0 (mkJournalPoint 9 0) = mkJournalPoint 9 3.
Proof.
  assert (Hr : inRange (mkJournalPoint 9 0))
    by (unfold inRange; cbn; lia).
  destruct (advance_block_size_zero (mkJournalPoint 9 0) Hr eq_refl)
    as [Hfull Hbelow].
  split; [exact Hfull | apply (Hbelow 3%nat); lia].
Defined.

(** One advance, whatever the entry count and the block size. *)
Lemma advance_sequenceNumber (p : JournalPoint) (e : Z) :
  inRange p -> sequenceNumber p + 1 < 2 ^ 64 ->
  inRange (advanceJournalPoint p e)
  /\ sequenceNumber p <= sequenceNumber (advanceJournalPoint p e)
     <= sequenceNumber p + 1.
Proof.
  intros [Hs Hc] Hfit. unfold advanceJournalPoint, inRange.
  cbn [sequenceNumber entryCount].
  pose proof (Z.mod_pos_bound (entryCount p + 1) (2 ^ 16) ltac:(lia)).
  destruct (wrap 16 (entryCount p + 1) =? e);
    cbn [sequenceNumber entryCount].
  - rewrite wrap_small by lia. lia.
  - unfold wrap. lia.
Qed.

(** X6: whatever the block size and the entry count, [k] advances never
    lower the sequence number and raise it by at most [k]; so a valid point
    stays valid, as long as the sequence number cannot overflow. *)
Theorem advance_keeps_valid (p : JournalPoint) (entriesPerBlock : Z)
    (k : nat) :
  inRange p -> sequenceNumber p + Z.of_nat k < 2 ^ 64 ->
  isValidJournalPoint (Some p) = true ->
  isValidJournalPoint (Some (advanceTimes k entriesPerBlock p)) = true
  /\ sequenceNumber p
     <= sequenceNumber (advanceTimes k entriesPerBlock p)
     <= sequenceNumber p + Z.of_nat k.
Proof.
  intros Hp Hfit Hvalid. cbn [isValidJournalPoint] in *.
  apply Z.ltb_lt in Hvalid.
  assert (Hrun :
    inRange (advanceTimes k entriesPerBlock p)
    /\ sequenceNumber p
       <= sequenceNumber (advanceTimes k entriesPerBlock p)
       <= sequenceNumber p + Z.of_nat k).
  { induction k as [| k IH].
    - cbn. split; [exact Hp | lia].
    - rewrite advanceTimes_S.
      destruct (IH ltac:(lia)) as [Hin Hseq].
      destruct (advance_sequenceNumber
                  (advanceTimes k entriesPerBlock p) entriesPerBlock Hin
                  ltac:(lia)) as [Hin' Hseq'].
      split; [exact Hin' | lia]. }
  destruct Hrun as [_ Hseq]. split; [apply Z.ltb_lt; lia | exact Hseq].
Qed.

Lemma advance_keeps_valid_witness :
  isValidJournalPoint (Some (advanceTimes 5 0 (mkJournalPoint 1 65533)))
  = true
  /\ 1 <= sequenceNumber (advanceTimes 5 0 (mkJournalPoint 1 65533))
     <= 1 + 5.
Proof.
  apply (advance_keeps_valid (mkJournalPoint 1 65533) 0 5).
  - unfold inRange; cbn; lia.
  - cbn; lia.
  - reflexivity.
Defined.

End JournalPointOrder.

(** ** The VIO pool in use *)

Module VIOPoolUseFacts.
Import VIOPool VIOPoolFacts VIOPoolUse.
Local Open Scope pool_scope.

(** What an acquire that returns has done, in its two cases. *)
Lemma acquire_cases (pool : VIOPool) (w : Waiter) (status : Z)
    (pool' : VIOPool) :
  returned (acquireVIOFromPool pool w) = Some (status, pool') ->
  (isRingEmpty (available pool) = true
   /\ events (acquireVIOFromPool pool w) = []
   /\ waiting pool' = waiting pool ++ [w]
   /\ outageCount pool' = wrap 64 (outageCount pool + 1))
  \/ (isRingEmpty (available pool) = false
      /\ (exists e : Entry,
            events (acquireVIOFromPool pool w) = [Invoke w e])
      /\ waiting pool' = waiting pool
      /\ outageCount pool' = outageCount pool).
Proof.
  destruct (isRingEmpty (available pool)) eqn:Hempty.
  - rewrite acquire_queues by exact Hempty. cbn [returned events].
    intros Hret. injection Hret as <- <-. left. repeat split.
  - intros Hret. right. split; [reflexivity |].
    destruct pool as [sz av q bc bs oc buf].
    unfold acquireVIOFromPool in *. cbn [available] in *.
    rewrite Hempty in *. unfold setBusyCount in *.
    cbn [size available waiting busyCount busy outageCount buffer] in *.
    destruct av as [| chain]; [discriminate |].
    unfold chopRingNode in *.
    destruct (rev chain) as [| e before]; [discriminate |].
    rewrite bind_ret in *. cbn [fst snd] in *.
    unfold pushRingNode, setAvailable, setBusy in *.
    cbn [size available waiting busyCount busy outageCount buffer] in *.
    destruct bs as [| b]; [discriminate |].
    cbn [unspliceRingNode] in *. rewrite bind_ret, bind_emit in *.
    cbn [events returned ret] in *. injection Hret as <- <-.
    cbn. split; [now exists e | split; reflexivity].
Qed.

(** X8: over a sequence of acquires that all return, the waiters that were
    not served at once are appended to the wait queue in the order of their
    calls, and [getVIOPoolOutageCount] grows by exactly their number. *)
Theorem acquires_queue_in_order (ws : list Waiter) :
  forall (pool : VIOPool) (calls : list (Outcome Z)) (final : VIOPool),
    acquireEach pool ws = (calls, Some final) ->
    0 <= outageCount pool ->
    outageCount pool + Z.of_nat (length ws) < 2 ^ 64 ->
    waiting final = waiting pool ++ queuedAmong ws calls
    /\ getVIOPoolOutageCount final
       = getVIOPoolOutageCount pool
         + Z.of_nat (length (queuedAmong ws calls)).
Proof.
  unfold getVIOPoolOutageCount.
  induction ws as [| w ws IH]; intros pool calls final Hrun H0 Hfit.
  - cbn in Hrun. injection Hrun as <- <-. cbn.
    rewrite app_nil_r. split; [reflexivity | lia].
  - cbn [acquireEach] in Hrun. cbn [length] in Hfit.
    destruct (returned (acquireVIOFromPool pool w))
      as [[status pool'] |] eqn:Hcall; [| discriminate].
    cbn [fst snd] in Hrun.
    destruct (acquireEach pool' ws) as [later last] eqn:Hlater.
    cbn [fst snd] in Hrun. injection Hrun as <- ->.
    destruct (acquire_cases pool w status pool' Hcall)
      as [(_ & Hev & Hq & Hoc) | (_ & (e & Hev) & Hq & Hoc)];
      rewrite Hev; cbn [queuedAmong events].
    + rewrite wrap_small in Hoc by lia.
      destruct (IH pool' later final Hlater ltac:(lia) ltac:(lia))
        as [Hq' Hoc'].
      rewrite Hq', Hq, Hoc', Hoc, <- app_assoc. cbn [app length].
      split; [reflexivity | lia].
    + destruct (IH pool' later final Hlater ltac:(lia) ltac:(lia))
        as [Hq' Hoc'].
      rewrite Hq', Hq, Hoc', Hoc. split; reflexivity.
Qed.

Lemma acquires_queue_in_order_witness :
  waiting (mkVIOPool 1 (Ring []) [20; 21; 22]%nat 1 (Ring [0%nat]) 3 true)
  = [20%nat]
    ++ queuedAmong [21; 22]%nat
         [mkOutcome [] (Some VDO_SUCCESS); mkOutcome [] (Some VDO_SUCCESS)]
  /\ getVIOPoolOutageCount
       (mkVIOPool 1 (Ring []) [20; 21; 22]%nat 1 (Ring [0%nat]) 3 true)
     = 1 + Z.of_nat
             (length (queuedAmong [21; 22]%nat
                        [mkOutcome [] (Some VDO_SUCCESS);
                         mkOutcome [] (Some VDO_SUCCESS)])).
Proof.
  apply (acquires_queue_in_order [21; 22]%nat
           (mkVIOPool 1 (Ring []) [20%nat] 1 (Ring [0%nat]) 1 true)).
  - reflexivity.
  - cbn. lia.
  - cbn. lia.
Defined.

(** X9: while waiters are queued, successive releases serve them in the
    order they were queued, each with the entry released by that call; the
    waiters behind them stay queued, and the two lists and the counters do
    not change. *)
Theorem releases_serve_in_order (ws : list Waiter) :
  forall (es : list Entry) (pool : VIOPool) (rest : list Waiter),
    length es = length ws ->
    waiting pool = ws ++ rest ->
    releaseEach pool es
    = (map (fun served =>
              [ClearErrorHandler (snd served);
               Invoke (fst served) (snd served)])
           (combine ws es),
       Some (mkVIOPool (size pool) (available pool) rest (busyCount pool)
                       (busy pool) (outageCount pool) (buffer pool))).
Proof.
  induction ws as [| w ws IH]; intros es pool rest Hlen Hq.
  - destruct es; [| discriminate]. cbn in *. subst rest.
    now destruct pool.
  - destruct es as [| e es]; [discriminate |].
    injection Hlen as Hlen. cbn [app] in Hq.
    cbn [releaseEach]. rewrite (release_hands_over pool e w (ws ++ rest) Hq).
    cbn [returned events].
    rewrite (IH es _ rest Hlen) by reflexivity. reflexivity.
Qed.

Lemma releases_serve_in_order_witness :
  releaseEach
    (mkVIOPool 2 (Ring []) [20; 21; 22]%nat 2 (Ring [1; 0]%nat) 3 true)
    [0; 1]%nat
  = ([[ClearErrorHandler 0%nat; Invoke 20%nat 0%nat];
      [ClearErrorHandler 1%nat; Invoke 21%nat 1%nat]],
     Some (mkVIOPool 2 (Ring []) [22%nat] 2 (Ring [1; 0]%nat) 3 true)).
Proof.
  apply (releases_serve_in_order [20; 21]%nat [0; 1]%nat
           (mkVIOPool 2 (Ring []) [20; 21; 22]%nat 2 (Ring [1; 0]%nat)
                      3 true) [22%nat]); reflexivity.
Defined.


(** The counter of a pool that satisfies the invariant counts the busy
    list. *)
Lemma busyCount_counts (pool : VIOPool) (a b : list Entry) :
  available pool = Ring a -> busy pool = Ring b ->
  poolInvariant pool -> 0 <= size pool ->
  busyCount pool = Z.of_nat (length b)
  /\ NoDup (a ++ b)
  /\ Permutation (a ++ b) (entriesOf pool).
Proof.
  intros Ha Hb (a' & b' & Ha' & Hb' & Hsum & Hperm & Hfit) Hsize.
  rewrite Ha in Ha'. rewrite Hb in Hb'.
  injection Ha' as <-. injection Hb' as <-.
  destruct (invariant_lengths pool a b Hperm Hsum) as (Hnd & Hlen & _).
  repeat split; try assumption. lia.
Qed.

(** X7: on a pool that satisfies the invariant and has an entry available,
    an acquire runs the waiter's continuation with an entry that was on the
    available list and not on the busy list, moves it to the busy list,
    adds 1 to [busyCount] and leaves the wait queue and the outage count
    alone. *)
Theorem acquire_grants_available_entry (pool : VIOPool) (w : Waiter) :
  poolInvariant pool -> 0 <= size pool ->
  isRingEmpty (available pool) = false ->
  exists (e : Entry) (pool' : VIOPool),
    acquireVIOFromPool pool w
    = mkOutcome [Invoke w e] (Some (VDO_SUCCESS, pool'))
    /\ onRing e (available pool) = true
    /\ onRing e (busy pool) = false
    /\ onRing e (available pool') = false
    /\ onRing e (busy pool') = true
    /\ busyCount pool' = busyCount pool + 1
    /\ waiting pool' = waiting pool
    /\ outageCount pool' = outageCount pool.
Proof.
  intros Hinv Hsize Hnonempty.
  destruct Hinv as (a & b & Ha & Hb & Hrest).
  assert (Hinv : poolInvariant pool) by (exists a, b; tauto).
  destruct (busyCount_counts pool a b Ha Hb Hinv Hsize)
    as (Hcount & Hnd & Hperm).
  destruct Hrest as (Hsum & _ & Hfit).
  destruct (rev a) as [| e a'] eqn:Hrev;
    apply (f_equal (@rev nat)) in Hrev; rewrite rev_involutive in Hrev;
    cbn [rev] in Hrev; subst a.
  - rewrite Ha in Hnonempty. discriminate.
  - assert (Hnd' : NoDup (rev a' ++ e :: b))
      by (now rewrite <- app_assoc in Hnd).
    assert (He : ~ In e (rev a' ++ b)) by (eapply NoDup_remove_2; eauto).
    assert (Hna : ~ In e (rev a'))
      by (intros Hin; apply He, in_or_app; now left).
    assert (Hnb : ~ In e b)
      by (intros Hin; apply He, in_or_app; now right).
    rewrite length_app in Hsum. cbn [length] in Hsum.
    exists e. eexists.
    split; [apply (acquire_grants pool w (rev a') b e);
            try assumption; lia |].
    cbn [size available waiting busyCount busy outageCount buffer].
    rewrite Ha, Hb, !onRing_In.
    repeat split.
    + apply in_or_app. right. now left.
    + destruct (onRing e (Ring b)) eqn:Hon; [| reflexivity].
      now apply onRing_In in Hon.
    + destruct (onRing e (Ring (rev a'))) eqn:Hon; [| reflexivity].
      now apply onRing_In in Hon.
    + apply in_or_app. right. now left.
Qed.


Lemma acquire_grants_available_entry_witness :
  exists (e : nat) (pool' : VIOPool),
    acquireVIOFromPool (freshPool 2) 10%nat
    = mkOutcome [Invoke 10%nat e] (Some (VDO_SUCCESS, pool'))
    /\ onRing e (available (freshPool 2)) = true
    /\ onRing e (busy (freshPool 2)) = false
    /\ onRing e (available pool') = false
    /\ onRing e (busy pool') = true
    /\ busyCount pool' = busyCount (freshPool 2) + 1
    /\ waiting pool' = waiting (freshPool 2)
    /\ outageCount pool' = outageCount (freshPool 2).
Proof.
  apply (acquire_grants_available_entry (freshPool 2) 10%nat).
  - exists [0; 1]%nat, []. cbn. repeat split; try lia.
    apply Permutation_refl.
  - cbn. lia.
  - reflexivity.
Defined.

(** X11: on a pool that satisfies the invariant, [isVIOPoolBusy] is true
    exactly when some entry is on the busy list, and false exactly when
    every entry is on the available list. *)
Theorem busy_iff_on_loan (pool : VIOPool) :
  poolInvariant pool -> 0 <= size pool ->
  (isVIOPoolBusy pool = true
   <-> exists e : Entry, onRing e (busy pool) = true)
  /\ (isVIOPoolBusy pool = false <-> allAvailable pool).
Proof.
  intros Hinv Hsize.
  destruct Hinv as (a & b & Ha & Hb & Hrest).
  assert (Hinv : poolInvariant pool) by (exists a, b; tauto).
  destruct (busyCount_counts pool a b Ha Hb Hinv Hsize)
    as (Hcount & Hnd & Hperm).
  unfold isVIOPoolBusy. rewrite Hcount, Hb. split.
  - rewrite negb_true_iff, Z.eqb_neq. split.
    + intros Hne. destruct b as [| e b]; [now contradiction Hne |].
      exists e. apply onRing_In. now left.
    + intros (e & Hon). apply onRing_In in Hon.
      destruct b; [destruct Hon | cbn [length]; lia].
  - rewrite negb_false_iff, Z.eqb_eq. split.
    + intros H0.
      assert (b = []) by (destruct b; [reflexivity | cbn in H0; lia]).
      subst b. rewrite app_nil_r in Hperm. exists a. now rewrite Hb.
    + intros (a' & _ & Hb' & _). rewrite Hb in Hb'.
      injection Hb' as ->. reflexivity.
Qed.

Lemma busy_iff_on_loan_witness :
  (isVIOPoolBusy (mkVIOPool 2 (Ring [0%nat]) [] 1 (Ring [1%nat]) 0 true)
   = true
   <-> exists e : nat,
         onRing e (busy (mkVIOPool 2 (Ring [0%nat]) [] 1 (Ring [1%nat])
                                   0 true)) = true)
  /\ (isVIOPoolBusy (mkVIOPool 2 (Ring [0%nat]) [] 1 (Ring [1%nat]) 0 true)
      = false
      <-> allAvailable (mkVIOPool 2 (Ring [0%nat]) [] 1 (Ring [1%nat])
                                  0 true)).
Proof.
  apply (busy_iff_on_loan
           (mkVIOPool 2 (Ring [0%nat]) [] 1 (Ring [1%nat]) 0 true)).
  - exists [0%nat], [1%nat]. cbn. repeat split; try lia.
    apply Permutation_refl.
  - cbn. lia.
Defined.

(** Releasing, with nobody waiting, entries that make up the busy list. *)
Lemma releaseEach_on_loan (es : list Entry) :
  forall (pool : VIOPool) (a b : list Entry),
    available pool = Ring a -> busy pool = Ring b ->
    poolInvariant pool -> 0 <= size pool -> waiting pool = [] ->
    Permutation es b ->
    exists final : VIOPool,
      releaseEach pool es
      = (map (fun e => [ClearErrorHandler e]) es, Some final)
      /\ available final = Ring (a ++ es)
      /\ busy final = Ring []
      /\ busyCount final = 0
      /\ waiting final = []
      /\ size final = size pool
      /\ poolInvariant final.
Proof.
  induction es as [| e es IH]; intros pool a b Ha Hb Hinv Hsize Hq Hperm.
  - apply Permutation_nil in Hperm. subst b.
    destruct (busyCount_counts pool a [] Ha Hb Hinv Hsize) as (Hcount & _).
    exists pool. rewrite app_nil_r. cbn. repeat split; assumption.
  - destruct (busyCount_counts pool a b Ha Hb Hinv Hsize)
      as (Hcount & Hnd & Hall).
    assert (Hin : In e b)
      by (eapply Permutation_in; [exact Hperm | now left]).
    assert (Hna : ~ In e a).
    { intros Hina. apply in_split in Hina.
      destruct Hina as (a1 & a2 & ->).
      rewrite <- app_assoc in Hnd. cbn in Hnd.
      apply NoDup_remove_2 in Hnd. apply Hnd.
      rewrite app_assoc. apply in_or_app. now right. }
    assert (Hon : onRing e (busy pool) = true)
      by (rewrite Hb; now apply onRing_In).
    destruct (release_preserves_invariant pool e Hinv Hon)
      as (pool' & Hret & Hinv' & Hsize').
    pose proof (release_returns pool e a Hq Ha) as Hrun.
    rewrite Hrun in Hret. cbn [returned] in Hret.
    rewrite notin_remove, Hb in Hret by assumption.
    cbn [unspliceRingNode] in Hret. injection Hret as Hpool'.
    assert (Hrest : Permutation es (remove Nat.eq_dec e b)).
    { apply (Permutation_cons_inv (a := e)).
      rewrite Hperm. apply NoDup_remove_present; [| exact Hin].
      now apply NoDup_app_remove_l in Hnd. }
    destruct (IH pool' (a ++ [e]) (remove Nat.eq_dec e b))
      as (final & Hlater & Hav & Hbs & Hbc & Hw & Hsz & Hfin);
      try (subst pool'; reflexivity); try assumption; try lia.
    exists final. cbn [releaseEach]. rewrite Hrun. cbn [returned events].
    rewrite notin_remove, Hb by assumption. cbn [unspliceRingNode].
    rewrite Hpool', Hlater. cbn [fst snd map].
    rewrite <- app_assoc in Hav. cbn [app] in Hav.
    repeat split; try assumption. lia.
Qed.

(** X10: when nobody waits, releasing the entries on loan, each once and in
    any order, puts them at the end of the available list in that order and
    leaves the pool idle: every entry available, [isVIOPoolBusy] false, and
    a teardown that reports no failed assertion. *)
Theorem releasing_all_leaves_pool_idle (pool : VIOPool)
    (a b es : list Entry) :
  available pool = Ring a -> busy pool = Ring b ->
  poolInvariant pool -> 0 <= size pool -> waiting pool = [] ->
  Permutation es b ->
  exists final : VIOPool,
    releaseEach pool es
    = (map (fun e => [ClearErrorHandler e]) es, Some final)
    /\ available final = Ring (a ++ es)
    /\ allAvailable final
    /\ isVIOPoolBusy final = false
    /\ waiting final = []
    /\ failedAssertions (events (freeVIOPool (Some final))) = []
    /\ returned (freeVIOPool (Some final)) = Some None.
Proof.
  intros Ha Hb Hinv Hsize Hq Hperm.
  destruct (releaseEach_on_loan es pool a b Ha Hb Hinv Hsize Hq Hperm)
    as (final & Hrun & Hav & Hbs & Hbc & Hw & Hsz & Hfin).
  exists final.
  assert (Hsize' : 0 <= size final) by lia.
  destruct (busyCount_counts final (a ++ es) [] Hav Hbs Hfin Hsize')
    as (_ & _ & Hall).
  rewrite app_nil_r in Hall.
  rewrite (freeVIOPool_idle final (a ++ es) Hw Hbc Hav Hbs).
  cbn [events returned]. unfold isVIOPoolBusy. rewrite Hbc.
  repeat split; try assumption.
  - now exists (a ++ es).
  - unfold failedAssertions. rewrite flat_map_app.
    fold (failedAssertions (givenBack final)).
    fold (failedAssertions
            (map (fun e => Released (EntryVIO e)) (rev (a ++ es)))).
    now rewrite failedAssertions_released, failedAssertions_givenBack.
Qed.

Lemma releasing_all_leaves_pool_idle_witness :
  exists final : VIOPool,
    releaseEach (mkVIOPool 3 (Ring [0%nat]) [] 2 (Ring [2; 1]%nat) 0 true)
                [1; 2]%nat
    = (map (fun e => [ClearErrorHandler e]) [1; 2]%nat, Some final)
    /\ available final = Ring ([0%nat] ++ [1; 2]%nat)
    /\ allAvailable final
    /\ isVIOPoolBusy final = false
    /\ waiting final = []
    /\ failedAssertions (events (freeVIOPool (Some final))) = []
    /\ returned (freeVIOPool (Some final)) = Some None.
Proof.
  apply (releasing_all_leaves_pool_idle
           (mkVIOPool 3 (Ring [0%nat]) [] 2 (Ring [2; 1]%nat) 0 true)
           [0%nat] [2; 1]%nat [1; 2]%nat); try reflexivity.
  - exists [0%nat], [2; 1]%nat. cbn. repeat split; try lia.
    apply perm_skip, perm_swap.
  - cbn. lia.
  - apply perm_swap.
Defined.





(** A construction that stored a pool, with all it did. *)
Lemma makeVIOPool_stored_run (ap ab : Z) (n : nat) (ctor : Entry -> Z)
    (status : Z) (pool : VIOPool) :
  Z.of_nat n < 2 ^ 64 ->
  returned (makeVIOPool ap ab (Z.of_nat n) ctor) = Some (status, Some pool) ->
  makeVIOPool ap ab (Z.of_nat n) ctor
  = mkOutcome (Allocated PoolMemory :: Allocated PoolBuffer
               :: map (fun j => Allocated (EntryVIO j)) (seq 0 n))
              (Some (VDO_SUCCESS, Some (freshPool n)))
  /\ pool = freshPool n.
Proof.
  intros Hfit Hret.
  destruct (Z.eq_dec ap VDO_SUCCESS) as [-> | Hap].
  2:{ rewrite makeVIOPool_pool_allocation_fails in Hret by assumption.
      discriminate. }
  destruct (Z.eq_dec ab VDO_SUCCESS) as [-> | Hab].
  2:{ rewrite makeVIOPool_buffer_allocation_fails in Hret by assumption.
      discriminate. }
  destruct (first_failure ctor n) as [Hall | (k & Hk & Hbefore & Hbad)].
  - rewrite makeVIOPool_succeeds in * by assumption.
    cbn in Hret. injection Hret as _ <-. split; reflexivity.
  - rewrite (makeVIOPool_constructor_fails n k) in Hret by assumption.
    discriminate.
Qed.

Lemma NoDup_constructed (n : nat) :
  NoDup (map EntryVIO (rev (seq 0 n)) ++ [PoolBuffer; PoolMemory]).
Proof.
  apply NoDup_app.
  - apply NoDup_map_NoDup_ForallPairs; [| apply NoDup_rev, seq_NoDup].
    intros x y _ _ Heq. now injection Heq.
  - repeat constructor; cbn; intuition discriminate.
  - intros r Hin. apply in_map_iff in Hin.
    destruct Hin as (j & <- & _). cbn. intuition discriminate.
Qed.

(** X13: after a construction that stored a pool, teardown of that pool
    returns with the pointer cleared, no assertion has failed, everything
    construction allocated has been released, and a second teardown through
    the cleared pointer does nothing. *)
Theorem construct_teardown_leaves_nothing (ap ab : Z) (n : nat)
    (ctor : Entry -> Z) (status : Z) (pool : VIOPool) :
  Z.of_nat n < 2 ^ 64 ->
  returned (makeVIOPool ap ab (Z.of_nat n) ctor) = Some (status, Some pool) ->
  let made := makeVIOPool ap ab (Z.of_nat n) ctor in
  let freed := freeVIOPool (Some pool) in
  exists cell : option VIOPool,
    returned freed = Some cell
    /\ cell = None
    /\ failedAssertions (events made ++ events freed) = []
    /\ outstanding [] (events made ++ events freed) = []
    /\ freeVIOPool cell = mkOutcome [] (Some None).
Proof.
  intros Hfit Hret made freed. subst made freed.
  destruct (makeVIOPool_stored_run ap ab n ctor status pool Hfit Hret)
    as [-> ->].
  rewrite (freeVIOPool_idle (freshPool n) (seq 0 n)) by reflexivity.
  exists None. cbn [events returned givenBack buffer freshPool app].
  split; [reflexivity |]. split; [reflexivity |]. split; [| split].
  - cbn [failedAssertions flat_map app]. rewrite !flat_map_app.
    fold (failedAssertions
            (map (fun e => Released (EntryVIO e)) (rev (seq 0 n)))).
    rewrite failedAssertions_released. cbn [flat_map app].
    rewrite app_nil_r.
    induction (seq 0 n) as [| x l IH]; [reflexivity | exact IH].
  - cbn [outstanding].
    rewrite <- (map_map EntryVIO Allocated), outstanding_allocated.
    rewrite <- (map_map EntryVIO Released).
    change [Released PoolBuffer; Released PoolMemory]
      with (map Released [PoolBuffer; PoolMemory]).
    rewrite <- map_app, <- map_rev.
    apply outstanding_released, NoDup_constructed.
  - reflexivity.
Qed.

Lemma construct_teardown_leaves_nothing_witness :
  let made := makeVIOPool VDO_SUCCESS VDO_SUCCESS 2 (fun _ => VDO_SUCCESS) in
  let freed := freeVIOPool (Some (freshPool 2)) in
  exists cell : option VIOPool,
    returned freed = Some cell
    /\ cell = None
    /\ failedAssertions (events made ++ events freed) = []
    /\ outstanding [] (events made ++ events freed) = []
    /\ freeVIOPool cell = mkOutcome [] (Some None).
Proof.
  apply (construct_teardown_leaves_nothing VDO_SUCCESS VDO_SUCCESS 2
           (fun _ => VDO_SUCCESS) VDO_SUCCESS (freshPool 2));
    reflexivity.
Defined.

(** X14: whenever [makeVIOPool] returns, it has stored a pool exactly when
    its status is [VDO_SUCCESS]; success means both allocations and every
    constructor succeeded and the stored pool has all its entries
    available; an error status is the error of the pool allocation or of
    the first constructor that failed. *)
Theorem makeVIOPool_stores_iff_success (ap ab : Z) (n : nat)
    (ctor : Entry -> Z) (status : Z) (stored : option VIOPool) :
  Z.of_nat n < 2 ^ 64 ->
  returned (makeVIOPool ap ab (Z.of_nat n) ctor) = Some (status, stored) ->
  (status = VDO_SUCCESS <-> stored <> None)
  /\ (status = VDO_SUCCESS ->
      ap = VDO_SUCCESS /\ ab = VDO_SUCCESS
      /\ (forall j : nat, (j < n)%nat -> ctor j = VDO_SUCCESS)
      /\ stored = Some (freshPool n))
  /\ (status <> VDO_SUCCESS ->
      status = ap
      \/ exists k : nat, (k < n)%nat /\ status = ctor k
           /\ forall j : nat, (j < k)%nat -> ctor j = VDO_SUCCESS).
Proof.
  intros Hfit Hret.
  destruct (Z.eq_dec ap VDO_SUCCESS) as [-> | Hap].
  2:{ rewrite makeVIOPool_pool_allocation_fails in Hret by assumption.
      cbn in Hret. injection Hret as <- <-.
      repeat split; try tauto; try congruence. }
  destruct (Z.eq_dec ab VDO_SUCCESS) as [-> | Hab].
  2:{ rewrite makeVIOPool_buffer_allocation_fails in Hret by assumption.
      discriminate. }
  destruct (first_failure ctor n) as [Hall | (k & Hk & Hbefore & Hbad)].
  - rewrite makeVIOPool_succeeds in Hret by assumption.
    cbn in Hret. injection Hret as <- <-.
    repeat split; try tauto; try congruence.
  - rewrite (makeVIOPool_constructor_fails n k) in Hret by assumption.
    cbn in Hret. injection Hret as <- <-.
    repeat split; try tauto; try congruence.
    intros _. right. exists k. repeat split; assumption.
Qed.

Lemma makeVIOPool_stores_iff_success_witness :
  (12 = VDO_SUCCESS <-> @None VIOPool <> None)
  /\ (12 = VDO_SUCCESS ->
      VDO_SUCCESS = VDO_SUCCESS /\ VDO_SUCCESS = VDO_SUCCESS
      /\ (forall j : nat, (j < 3)%nat ->
          (if Nat.eqb j 1 then 12 else VDO_SUCCESS) = VDO_SUCCESS)
      /\ None = Some (freshPool 3))
  /\ (12 <> VDO_SUCCESS ->
      12 = VDO_SUCCESS
      \/ exists k : nat, (k < 3)%nat
           /\ 12 = (if Nat.eqb k 1 then 12 else VDO_SUCCESS)
           /\ forall j : nat, (j < k)%nat ->
              (if Nat.eqb j 1 then 12 else VDO_SUCCESS) = VDO_SUCCESS).
Proof.
  apply (makeVIOPool_stores_iff_success VDO_SUCCESS VDO_SUCCESS 3
           (fun j => if Nat.eqb j 1 then 12 else VDO_SUCCESS) 12 None);
    reflexivity.
Defined.


(** X16: [returnVIOToPool] does not check that the entry is on loan: with
    nobody waiting, releasing an entry that is on the available list leaves
    the length of that list and the busy list as they were and still takes
    1 off [busyCount] (wrapping below 0), after which the invariant no
    longer holds. *)
Theorem release_of_available_entry (pool : VIOPool) (e : Entry) :
  poolInvariant pool -> 0 <= size pool -> waiting pool = [] ->
  onRing e (available pool) = true ->
  exists pool' : VIOPool,
    returned (returnVIOToPool pool e) = Some pool'
    /\ ringLength (available pool') = ringLength (available pool)
    /\ busy pool' = busy pool
    /\ busyCount pool' = wrap 64 (busyCount pool - 1)
    /\ size pool' = size pool
    /\ ~ poolInvariant pool'.
Proof.
  intros Hinv Hsize Hq Hon.
  destruct Hinv as (a & b & Ha & Hb & Hrest).
  assert (Hinv : poolInvariant pool) by (exists a, b; tauto).
  destruct (busyCount_counts pool a b Ha Hb Hinv Hsize)
    as (Hcount & Hnd & Hperm).
  destruct Hrest as (Hsum & _ & Hfit).
  rewrite Ha in Hon. apply onRing_In in Hon.
  assert (Hnb : ~ In e b).
  { intros Hin. apply in_split in Hon. destruct Hon as (a1 & a2 & ->).
    rewrite <- app_assoc in Hnd. cbn in Hnd.
    apply NoDup_remove_2 in Hnd. apply Hnd.
    rewrite app_assoc. apply in_or_app. now right. }
  assert (Hlen : length (remove Nat.eq_dec e a ++ [e]) = length a).
  { assert (Hp : Permutation a (e :: remove Nat.eq_dec e a)).
    { apply NoDup_remove_present; [| exact Hon].
      now apply NoDup_app_remove_r in Hnd. }
    apply Permutation_length in Hp. rewrite length_app. cbn in *. lia. }
  rewrite (release_returns pool e a Hq Ha), Hb. cbn [unspliceRingNode].
  rewrite (notin_remove Nat.eq_dec b e Hnb).
  eexists. split; [reflexivity |].
  cbn [size available busy busyCount ringLength]. rewrite Ha.
  cbn [ringLength]. repeat split; try assumption; try (now symmetry).
  intros (a' & b' & Ha' & _ & Hsum' & _).
  cbn [size available busy busyCount] in Ha', Hsum'.
  injection Ha' as <-. rewrite Hlen in Hsum'.
  assert (Hbound : 0 <= busyCount pool < 2 ^ 64) by lia.
  unfold wrap in Hsum'.
  destruct (Z.eq_dec (busyCount pool) 0) as [H0 | Hpos].
  - rewrite H0 in Hsum'.
    change ((0 - 1) mod 2 ^ 64) with (2 ^ 64 - 1) in Hsum'. lia.
  - rewrite Z.mod_small in Hsum' by lia. lia.
Qed.

Lemma release_of_available_entry_witness :
  exists pool' : VIOPool,
    returned (returnVIOToPool (freshPool 2) 0%nat) = Some pool'
    /\ ringLength (available pool') = ringLength (available (freshPool 2))
    /\ busy pool' = busy (freshPool 2)
    /\ busyCount pool' = wrap 64 (busyCount (freshPool 2) - 1)
    /\ size pool' = size (freshPool 2)
    /\ ~ poolInvariant pool'.
Proof.
  apply (release_of_available_entry (freshPool 2) 0%nat).
  - exists [0; 1]%nat, []. cbn. repeat split; try lia.
    apply Permutation_refl.
  - cbn. lia.
  - reflexivity.
  - reflexivity.
Defined.

Lemma makeVIOPool_constructor_failure_unwinds_witness :
  let made :=
    makeVIOPool VDO_SUCCESS VDO_SUCCESS 3
                (fun j => if Nat.eqb j 2 then 12 else VDO_SUCCESS) in
  returned made = Some (12, None)
  /\ failedAssertions (events made) = []
  /\ outstanding [] (events made) = [].
Proof.
  apply (makeVIOPool_constructor_failure_unwinds 3 2
           (fun j => if Nat.eqb j 2 then 12 else VDO_SUCCESS)).
  - cbn. lia.
  - lia.
  - intros j Hj. destruct j as [| [| j]]; [reflexivity | reflexivity | lia].
  - cbn. discriminate.
Defined.

End VIOPoolUseFacts.

(** ** Atomic cells *)

Module AtomicFacts.
Import Atomic.

Lemma wrap_add_wrap (w x d : Z) :
  0 <= w -> wrap w (x + wrap w d) = wrap w (x + d).
Proof.
  intros Hw. unfold wrap. apply Z.add_mod_idemp_r.
  apply Z.pow_nonzero; lia.
Qed.

(** X17: a boolean store followed by a boolean load, ordered or relaxed in
    any combination, reads the boolean that was stored, whatever the cell
    held before; the cell then holds 0 or 1. *)
Theorem bool_store_then_load (atom : AtomicBool) (b : bool) :
  atomicLoadBool (atomicStoreBool atom b) = b
  /\ relaxedLoadBool (relaxedStoreBool atom b) = b
  /\ atomicLoadBool (relaxedStoreBool atom b) = b
  /\ relaxedLoadBool (atomicStoreBool atom b) = b
  /\ holdsBool (atomicStoreBool atom b)
  /\ holdsBool (relaxedStoreBool atom b).
Proof.
  unfold holdsBool. destruct b; cbn; repeat split; auto.
Qed.

(** X18: on a boolean cell that holds 0 or 1, [compareAndSwapBool]
    succeeds exactly when the boolean a load reads is the required one; the
    cell then reads as the new value, a failed swap leaves the cell as it
    was, and the cell still holds 0 or 1. *)
Theorem bool_compareAndSwap (atom : AtomicBool) (required new : bool) :
  holdsBool atom ->
  let swapped := compareAndSwapBool atom required new in
  fst swapped = Bool.eqb (atomicLoadBool atom) required
  /\ atomicLoadBool (snd swapped)
     = (if fst swapped then new else atomicLoadBool atom)
  /\ (fst swapped = false -> snd swapped = atom)
  /\ holdsBool (snd swapped).
Proof.
  destruct atom as [[v]]. unfold holdsBool. cbn [valueBool value32].
  intros [-> | ->]; destruct required, new; cbn; repeat split; auto;
    discriminate.
Qed.

Lemma bool_compareAndSwap_witness :
  let atom := atomicStoreBool (mkAtomicBool (mkAtomic32 7)) false in
  let swapped := compareAndSwapBool atom false true in
  fst swapped = Bool.eqb (atomicLoadBool atom) false
  /\ atomicLoadBool (snd swapped)
     = (if fst swapped then true else atomicLoadBool atom)
  /\ (fst swapped = false -> snd swapped = atom)
  /\ holdsBool (snd swapped).
Proof.
  apply (bool_compareAndSwap
           (atomicStoreBool (mkAtomicBool (mkAtomic32 7)) false)
           false true).
  left. reflexivity.
Defined.

(** The sum an add stores, for a cell and a delta in their ranges. *)
Lemma add_wraps (w value delta : Z) :
  0 < w -> 0 <= value < 2 ^ w ->
  wrap w (wrap w (value + wrap w delta) + wrap w (- delta)) = value.
Proof.
  intros Hw Hv. rewrite !wrap_add_wrap by lia. unfold wrap.
  rewrite Z.add_mod_idemp_l by (apply Z.pow_nonzero; lia).
  replace (value + delta + - delta) with value by lia.
  now apply Z.mod_small.
Qed.

(** X19: [relaxedAdd64] and [atomicAdd64] return the same new value and
    store it; the value is the sum taken modulo 2^64, the sum itself when it
    is in range (a negative delta subtracts), and adding [delta] and then
    [- delta] restores the cell. *)
Theorem add_then_subtract (atom : Atomic64) (delta : Z) :
  isUint64 (value64 atom) -> isInt64 delta -> isInt64 (- delta) ->
  fst (relaxedAdd64 atom delta) = (value64 atom + delta) mod 2 ^ 64
  /\ isUint64 (fst (relaxedAdd64 atom delta))
  /\ relaxedAdd64 atom delta = atomicAdd64 atom delta
  /\ relaxedLoad64 (snd (relaxedAdd64 atom delta))
     = fst (relaxedAdd64 atom delta)
  /\ (0 <= value64 atom + delta < 2 ^ 64 ->
      fst (relaxedAdd64 atom delta) = value64 atom + delta)
  /\ relaxedAdd64 (snd (relaxedAdd64 atom delta)) (- delta)
     = (value64 atom, atom).
Proof.
  destruct atom as [v]. unfold isUint64, isInt64. cbn [value64].
  intros Hv Hd Hd'.
  unfold relaxedAdd64, atomicAdd64, sync_add_and_fetch, relaxedLoad64,
    relaxedStore64. cbn [fst snd value64].
  split; [| repeat split].
  - now rewrite wrap_add_wrap by lia.
  - apply Z.mod_pos_bound. lia.
  - apply Z.mod_pos_bound. lia.
  - intros Hfit. rewrite wrap_add_wrap by lia. now apply wrap_small.
  - rewrite add_wraps by lia. reflexivity.
Qed.

Lemma add_then_subtract_witness :
  let atom := mkAtomic64 0 in
  fst (relaxedAdd64 atom (- 1)) = (value64 atom + - 1) mod 2 ^ 64
  /\ isUint64 (fst (relaxedAdd64 atom (- 1)))
  /\ relaxedAdd64 atom (- 1) = atomicAdd64 atom (- 1)
  /\ relaxedLoad64 (snd (relaxedAdd64 atom (- 1)))
     = fst (relaxedAdd64 atom (- 1))
  /\ (0 <= value64 atom + - 1 < 2 ^ 64 ->
      fst (relaxedAdd64 atom (- 1)) = value64 atom + - 1)
  /\ relaxedAdd64 (snd (relaxedAdd64 atom (- 1))) (- - 1)
     = (value64 atom, atom).
Proof.
  apply (add_then_subtract (mkAtomic64 0) (- 1));
    unfold isUint64, isInt64; cbn; lia.
Defined.

End AtomicFacts.
